(** * conntrack: the Flow aggregate codec of [flow.go]

    A shallow embedding of [NewFlow], [Flow.unmarshal], [Flow.marshal],
    [unmarshalFlow] and [unmarshalFlows], and the properties of the
    specification that concern them.

    [flow.go] is the only file of the package at hand.  The composite
    sub-entity codecs (tuple.go, status.go, ...), the scalar wrappers and the
    netfilter attribute primitive are collaborators of the Flow codec: the
    embedding takes them as an interface ([Collaborators]) and proves the
    Flow-level properties for every implementation of it.  A concrete
    implementation written after the specification ([SpecModel]) is used
    wherever a property needs a concrete collaborator: for the tuple codec
    behind the tuples-required check, for the round trip through encode
    and decode, and for the inputs on which the properties are run. *)

From Stdlib Require Import ZArith List Bool Lia String Permutation.
From Stdlib.Strings Require Import Byte.
Import ListNotations.
Local Open Scope Z_scope.
Set Warnings "-register-all".

(** ** Data model *)

Definition bytes := list byte.

(** Modelled from the spec: [netfilter.Attribute], the (type, raw value)
    pair of the attribute primitive, with its nested group.  [attrType] is
    the Go field [Type], a 16-bit code. *)
Inductive Attribute : Type := mkAttribute {
  attrType : Z;
  Nested : bool;
  Data : bytes;
  Children : list Attribute
}.

(** The sub-entity types.  [flow.go] shows the fields of [Tuple] and of
    [Status] that [NewFlow] writes; the other types are opaque to it. *)
Module Entities.

Record IPTuple := {
  SourceAddress : bytes;
  DestinationAddress : bytes
}.

Record ProtoTuple := {
  Protocol : Z;
  SourcePort : Z;
  DestinationPort : Z
}.

(** Modelled from the spec: a directional identity is an address pair, a
    protocol number and a port pair (section 3); the field names are those
    [NewFlow] assigns. *)
Record Tuple := {
  IP : IPTuple;
  Proto : ProtoTuple
}.

(** Modelled from the spec: a 32-bit flag word, stored raw. *)
Record Status := { Value : Z }.

(** Modelled from the spec: a tagged union over TCP, DCCP, SCTP or none,
    the protocol-specific state kept as uninterpreted bytes. *)
Inductive ProtoInfo :=
| ProtoInfoNone
| ProtoInfoTCP (state : bytes)
| ProtoInfoDCCP (state : bytes)
| ProtoInfoSCTP (state : bytes).

(** Modelled from the spec: helper name and opaque data blob. *)
Record Helper := { Name : bytes; Info : bytes }.

(** Modelled from the spec: 64-bit packet count and byte count. *)
Record Counter := { Packets : Z; Bytes : Z }.

(** Modelled from the spec: one textual context label. *)
Definition Security := bytes.

(** Modelled from the spec: start and stop time in nanoseconds. *)
Record Timestamp := { Start : Z; Stop : Z }.

(** Modelled from the spec: the correction state for one direction: the
    direction it belongs to ([false] original, [true] reply), the
    correction position, the offsets before and after.  The encoder of a
    sequence adjustment takes no type code in [flow.go], so the value
    itself tells its direction. *)
Record SequenceAdjust := {
  Direction : bool;
  Position : Z;
  OffsetBefore : Z;
  OffsetAfter : Z
}.

(** Modelled from the spec: initial sequence number, options blob, window
    scale. *)
Record SynProxy := { ISN : Z; Options : bytes; WScale : Z }.

End Entities.
Import Entities.

(** [type Flow struct], fields in the order of the source. *)
Record Flow := mkFlow {
  ID : Z;
  Timeout : Z;
  Timestamp : Entities.Timestamp;
  Status : Entities.Status;
  ProtoInfo : Entities.ProtoInfo;
  Helper : Entities.Helper;
  Zone : Z;
  CountersOrig : Counter;
  CountersReply : Counter;
  SecurityContext : Security;
  TupleOrig : Tuple;
  TupleReply : Tuple;
  TupleMaster : Tuple;
  SeqAdjOrig : SequenceAdjust;
  SeqAdjReply : SequenceAdjust;
  Labels : bytes;
  LabelsMask : bytes;
  Mark : Z;
  Use : Z;
  SynProxy : Entities.SynProxy
}.

(** Go zero values. *)
Definition zeroTuple : Tuple :=
  {| IP := {| SourceAddress := []; DestinationAddress := [] |};
     Proto := {| Protocol := 0; SourcePort := 0; DestinationPort := 0 |} |}.
Definition zeroStatus : Entities.Status := {| Value := 0 |}.
Definition zeroCounter : Counter := {| Packets := 0; Bytes := 0 |}.
Definition zeroTimestamp : Entities.Timestamp := {| Start := 0; Stop := 0 |}.
Definition zeroSequenceAdjust : SequenceAdjust :=
  {| Direction := false; Position := 0; OffsetBefore := 0;
     OffsetAfter := 0 |}.
Definition zeroHelper : Entities.Helper := {| Name := []; Info := [] |}.
Definition zeroSynProxy : Entities.SynProxy :=
  {| ISN := 0; Options := []; WScale := 0 |}.

(** [var f Flow] *)
Definition zeroFlow : Flow :=
  {| ID := 0; Timeout := 0; Timestamp := zeroTimestamp; Status := zeroStatus;
     ProtoInfo := ProtoInfoNone; Helper := zeroHelper; Zone := 0;
     CountersOrig := zeroCounter; CountersReply := zeroCounter;
     SecurityContext := [];
     TupleOrig := zeroTuple; TupleReply := zeroTuple; TupleMaster := zeroTuple;
     SeqAdjOrig := zeroSequenceAdjust; SeqAdjReply := zeroSequenceAdjust;
     Labels := []; LabelsMask := []; Mark := 0; Use := 0;
     SynProxy := zeroSynProxy |}.

(** Field assignment [f.X = v], one setter per field. *)
Definition set_ID (v : Z) (f : Flow) : Flow :=
  let 'mkFlow _ b c d e g h i j k l m n o p q r s t u := f in
  mkFlow v b c d e g h i j k l m n o p q r s t u.
Definition set_Timeout (v : Z) (f : Flow) : Flow :=
  let 'mkFlow a _ c d e g h i j k l m n o p q r s t u := f in
  mkFlow a v c d e g h i j k l m n o p q r s t u.
Definition set_Timestamp (v : Entities.Timestamp) (f : Flow) : Flow :=
  let 'mkFlow a b _ d e g h i j k l m n o p q r s t u := f in
  mkFlow a b v d e g h i j k l m n o p q r s t u.
Definition set_Status (v : Entities.Status) (f : Flow) : Flow :=
  let 'mkFlow a b c _ e g h i j k l m n o p q r s t u := f in
  mkFlow a b c v e g h i j k l m n o p q r s t u.
Definition set_ProtoInfo (v : Entities.ProtoInfo) (f : Flow) : Flow :=
  let 'mkFlow a b c d _ g h i j k l m n o p q r s t u := f in
  mkFlow a b c d v g h i j k l m n o p q r s t u.
Definition set_Helper (v : Entities.Helper) (f : Flow) : Flow :=
  let 'mkFlow a b c d e _ h i j k l m n o p q r s t u := f in
  mkFlow a b c d e v h i j k l m n o p q r s t u.
Definition set_Zone (v : Z) (f : Flow) : Flow :=
  let 'mkFlow a b c d e g _ i j k l m n o p q r s t u := f in
  mkFlow a b c d e g v i j k l m n o p q r s t u.
Definition set_CountersOrig (v : Counter) (f : Flow) : Flow :=
  let 'mkFlow a b c d e g h _ j k l m n o p q r s t u := f in
  mkFlow a b c d e g h v j k l m n o p q r s t u.
Definition set_CountersReply (v : Counter) (f : Flow) : Flow :=
  let 'mkFlow a b c d e g h i _ k l m n o p q r s t u := f in
  mkFlow a b c d e g h i v k l m n o p q r s t u.
Definition set_SecurityContext (v : Security) (f : Flow) : Flow :=
  let 'mkFlow a b c d e g h i j _ l m n o p q r s t u := f in
  mkFlow a b c d e g h i j v l m n o p q r s t u.
Definition set_TupleOrig (v : Tuple) (f : Flow) : Flow :=
  let 'mkFlow a b c d e g h i j k _ m n o p q r s t u := f in
  mkFlow a b c d e g h i j k v m n o p q r s t u.
Definition set_TupleReply (v : Tuple) (f : Flow) : Flow :=
  let 'mkFlow a b c d e g h i j k l _ n o p q r s t u := f in
  mkFlow a b c d e g h i j k l v n o p q r s t u.
Definition set_TupleMaster (v : Tuple) (f : Flow) : Flow :=
  let 'mkFlow a b c d e g h i j k l m _ o p q r s t u := f in
  mkFlow a b c d e g h i j k l m v o p q r s t u.
Definition set_SeqAdjOrig (v : SequenceAdjust) (f : Flow) : Flow :=
  let 'mkFlow a b c d e g h i j k l m n _ p q r s t u := f in
  mkFlow a b c d e g h i j k l m n v p q r s t u.
Definition set_SeqAdjReply (v : SequenceAdjust) (f : Flow) : Flow :=
  let 'mkFlow a b c d e g h i j k l m n o _ q r s t u := f in
  mkFlow a b c d e g h i j k l m n o v q r s t u.
Definition set_Labels (v : bytes) (f : Flow) : Flow :=
  let 'mkFlow a b c d e g h i j k l m n o p _ r s t u := f in
  mkFlow a b c d e g h i j k l m n o p v r s t u.
Definition set_LabelsMask (v : bytes) (f : Flow) : Flow :=
  let 'mkFlow a b c d e g h i j k l m n o p q _ s t u := f in
  mkFlow a b c d e g h i j k l m n o p q v s t u.
Definition set_Mark (v : Z) (f : Flow) : Flow :=
  let 'mkFlow a b c d e g h i j k l m n o p q r _ t u := f in
  mkFlow a b c d e g h i j k l m n o p q r v t u.
Definition set_Use (v : Z) (f : Flow) : Flow :=
  let 'mkFlow a b c d e g h i j k l m n o p q r s _ u := f in
  mkFlow a b c d e g h i j k l m n o p q r s v u.
Definition set_SynProxy (v : Entities.SynProxy) (f : Flow) : Flow :=
  let 'mkFlow a b c d e g h i j k l m n o p q r s t _ := f in
  mkFlow a b c d e g h i j k l m n o p q r s t v.

(** Assignment to the nested fields of a tuple, as [NewFlow] does. *)
Definition set_SourceAddress (v : bytes) (t : Tuple) : Tuple :=
  {| IP := {| SourceAddress := v;
              DestinationAddress := DestinationAddress (IP t) |};
     Proto := Proto t |}.
Definition set_DestinationAddress (v : bytes) (t : Tuple) : Tuple :=
  {| IP := {| SourceAddress := SourceAddress (IP t);
              DestinationAddress := v |};
     Proto := Proto t |}.
Definition set_SourcePort (v : Z) (t : Tuple) : Tuple :=
  {| IP := IP t;
     Proto := {| Protocol := Protocol (Proto t); SourcePort := v;
                 DestinationPort := DestinationPort (Proto t) |} |}.
Definition set_DestinationPort (v : Z) (t : Tuple) : Tuple :=
  {| IP := IP t;
     Proto := {| Protocol := Protocol (Proto t);
                 SourcePort := SourcePort (Proto t);
                 DestinationPort := v |} |}.
Definition set_Protocol (v : Z) (t : Tuple) : Tuple :=
  {| IP := IP t;
     Proto := {| Protocol := v; SourcePort := SourcePort (Proto t);
                 DestinationPort := DestinationPort (Proto t) |} |}.

(** ** Errors *)

(** [errNeedTuples] and [errAttributeUnknown] are the two errors [flow.go]
    raises itself; the others are the kinds of section 7 of the
    specification that its collaborators raise. *)
Inductive error :=
| errNeedTuples
| errAttributeUnknown (at_ : Z)
| errMalformed (entity : string)
| errAddressFamily
| errNetlink.

(** ** Attribute type codes *)

(** Modelled from the spec: the top-level type codes of the table of
    section 6.  The constant declarations are not in [flow.go]; the values
    are those of the kernel enumeration [ctattr_type].  Only their being
    pairwise distinct matters below. *)
Definition CTATupleOrig : Z := 1.
Definition CTATupleReply : Z := 2.
Definition CTAStatus : Z := 3.
Definition CTAProtoInfo : Z := 4.
Definition CTAHelp : Z := 5.
Definition CTATimeout : Z := 7.
Definition CTAMark : Z := 8.
Definition CTACountersOrig : Z := 9.
Definition CTACountersReply : Z := 10.
Definition CTAUse : Z := 11.
Definition CTAID : Z := 12.
Definition CTATupleMaster : Z := 14.
Definition CTASeqAdjOrig : Z := 15.
Definition CTASeqAdjReply : Z := 16.
Definition CTAZone : Z := 18.
Definition CTASecCtx : Z := 19.
Definition CTATimestamp : Z := 20.
Definition CTALabels : Z := 22.
Definition CTALabelsMask : Z := 23.
Definition CTASynProxy : Z := 24.

(** Modelled from the spec: the conversion [AttributeType(attr.Type)]; the
    type declaration is not in [flow.go], the code is kept as it is. *)
Definition AttributeType (t : Z) : Z := t.

(** ** Collaborators of the Flow codec *)

(** What [flow.go] calls and does not define.  A decoder with a pointer
    receiver, [func (t *T) UnmarshalAttribute(attr) error], is a function
    from the receiver's value and the attribute to the receiver's new value
    and the error: it sees the field it is called on and nothing else of
    the Flow.  An encoder is a function of its receiver's value (and of the
    type code, where [flow.go] passes one).  The accessors [Uint16] and
    [Uint32] are taken to return a value on every attribute. *)
Record Collaborators := {
  (* netlink.Message and netfilter.UnmarshalNetlink (header dropped) *)
  Message : Type;
  UnmarshalNetlink : Message -> list Attribute * option error;
  (* netfilter.Attribute accessors *)
  Uint16 : Attribute -> Z;
  Uint32 : Attribute -> Z;
  (* Num16{Value: v}.MarshalAttribute(t), Num32{Value: v}.MarshalAttribute(t) *)
  Num16_MarshalAttribute : Z -> Z -> Attribute;
  Num32_MarshalAttribute : Z -> Z -> Attribute;
  Tuple_Filled : Tuple -> bool;
  Tuple_UnmarshalAttribute : Tuple -> Attribute -> Tuple * option error;
  Tuple_MarshalAttribute : Tuple -> Z -> Attribute * option error;
  Status_UnmarshalAttribute :
    Entities.Status -> Attribute -> Entities.Status * option error;
  Status_MarshalAttribute : Entities.Status -> Attribute;
  ProtoInfo_Filled : Entities.ProtoInfo -> bool;
  ProtoInfo_UnmarshalAttribute :
    Entities.ProtoInfo -> Attribute -> Entities.ProtoInfo * option error;
  ProtoInfo_MarshalAttribute : Entities.ProtoInfo -> Attribute;
  Helper_Filled : Entities.Helper -> bool;
  Helper_UnmarshalAttribute :
    Entities.Helper -> Attribute -> Entities.Helper * option error;
  Helper_MarshalAttribute : Entities.Helper -> Attribute;
  Counter_UnmarshalAttribute : Counter -> Attribute -> Counter * option error;
  Security_UnmarshalAttribute :
    Security -> Attribute -> Security * option error;
  Timestamp_UnmarshalAttribute :
    Entities.Timestamp -> Attribute -> Entities.Timestamp * option error;
  SequenceAdjust_Filled : SequenceAdjust -> bool;
  SequenceAdjust_UnmarshalAttribute :
    SequenceAdjust -> Attribute -> SequenceAdjust * option error;
  SequenceAdjust_MarshalAttribute : SequenceAdjust -> Attribute;
  SynProxy_Filled : Entities.SynProxy -> bool;
  SynProxy_UnmarshalAttribute :
    Entities.SynProxy -> Attribute -> Entities.SynProxy * option error;
  SynProxy_MarshalAttribute : Entities.SynProxy -> Attribute
}.

(** ** The Flow codec *)

(** [func NewFlow(proto, status, srcAddr, destAddr, srcPort, destPort,
    timeout, mark) Flow] *)
Definition NewFlow (proto status : Z) (srcAddr destAddr : bytes)
    (srcPort destPort timeout mark : Z) : Flow :=
  let f := zeroFlow in
  let f := set_Status {| Value := status |} f in
  let f := set_Timeout timeout f in
  let f := set_Mark mark f in
  let f := set_TupleOrig (set_SourceAddress srcAddr (TupleOrig f)) f in
  let f := set_TupleOrig (set_DestinationAddress destAddr (TupleOrig f)) f in
  let f := set_TupleOrig (set_SourcePort srcPort (TupleOrig f)) f in
  let f := set_TupleOrig (set_DestinationPort destPort (TupleOrig f)) f in
  let f := set_TupleOrig (set_Protocol proto (TupleOrig f)) f in
  let f := set_TupleReply (set_SourceAddress destAddr (TupleReply f)) f in
  let f := set_TupleReply (set_DestinationAddress srcAddr (TupleReply f)) f in
  let f := set_TupleReply (set_SourcePort destPort (TupleReply f)) f in
  let f := set_TupleReply (set_DestinationPort srcPort (TupleReply f)) f in
  let f := set_TupleReply (set_Protocol proto (TupleReply f)) f in
  f.

(** [if cond { attrs = append(attrs, a) }] *)
Definition append_if (cond : bool) (attrs : list Attribute) (a : Attribute)
  : list Attribute :=
  if cond then attrs ++ [a] else attrs.

Section FlowCodec.

Variable C : Collaborators.

(** One iteration of the loop of [Flow.unmarshal]: the [switch] on the
    attribute's type, cases in the order of the source.  The result is the
    receiver after the iteration and the error the iteration returns. *)
Definition unmarshal_attr (f : Flow) (attr : Attribute)
  : Flow * option error :=
  let at_ := AttributeType (attrType attr) in
  if at_ =? CTATimeout then (set_Timeout (Uint32 C attr) f, None)
  else if at_ =? CTAID then (set_ID (Uint32 C attr) f, None)
  else if at_ =? CTAUse then (set_Use (Uint32 C attr) f, None)
  else if at_ =? CTAMark then (set_Mark (Uint32 C attr) f, None)
  else if at_ =? CTAZone then (set_Zone (Uint16 C attr) f, None)
  else if at_ =? CTALabels then (set_Labels (Data attr) f, None)
  else if at_ =? CTALabelsMask then (set_LabelsMask (Data attr) f, None)
  else if at_ =? CTATupleOrig then
    let (v, err) := Tuple_UnmarshalAttribute C (TupleOrig f) attr in
    (set_TupleOrig v f, err)
  else if at_ =? CTATupleReply then
    let (v, err) := Tuple_UnmarshalAttribute C (TupleReply f) attr in
    (set_TupleReply v f, err)
  else if at_ =? CTATupleMaster then
    let (v, err) := Tuple_UnmarshalAttribute C (TupleMaster f) attr in
    (set_TupleMaster v f, err)
  else if at_ =? CTAStatus then
    let (v, err) := Status_UnmarshalAttribute C (Status f) attr in
    (set_Status v f, err)
  else if at_ =? CTAProtoInfo then
    let (v, err) := ProtoInfo_UnmarshalAttribute C (ProtoInfo f) attr in
    (set_ProtoInfo v f, err)
  else if at_ =? CTAHelp then
    let (v, err) := Helper_UnmarshalAttribute C (Helper f) attr in
    (set_Helper v f, err)
  else if at_ =? CTACountersOrig then
    let (v, err) := Counter_UnmarshalAttribute C (CountersOrig f) attr in
    (set_CountersOrig v f, err)
  else if at_ =? CTACountersReply then
    let (v, err) := Counter_UnmarshalAttribute C (CountersReply f) attr in
    (set_CountersReply v f, err)
  else if at_ =? CTASecCtx then
    let (v, err) := Security_UnmarshalAttribute C (SecurityContext f) attr in
    (set_SecurityContext v f, err)
  else if at_ =? CTATimestamp then
    let (v, err) := Timestamp_UnmarshalAttribute C (Timestamp f) attr in
    (set_Timestamp v f, err)
  else if at_ =? CTASeqAdjOrig then
    let (v, err) := SequenceAdjust_UnmarshalAttribute C (SeqAdjOrig f) attr in
    (set_SeqAdjOrig v f, err)
  else if at_ =? CTASeqAdjReply then
    let (v, err) := SequenceAdjust_UnmarshalAttribute C (SeqAdjReply f) attr in
    (set_SeqAdjReply v f, err)
  else if at_ =? CTASynProxy then
    let (v, err) := SynProxy_UnmarshalAttribute C (SynProxy f) attr in
    (set_SynProxy v f, err)
  else (f, Some (errAttributeUnknown at_)).

(** [func (f *Flow) unmarshal(attrs []netfilter.Attribute) error]: the
    receiver is mutated in place, so the function returns it next to the
    error; a failing iteration returns at once. *)
Fixpoint unmarshal (f : Flow) (attrs : list Attribute)
  : Flow * option error :=
  match attrs with
  | [] => (f, None)
  | attr :: rest =>
      match unmarshal_attr f attr with
      | (f', Some e) => (f', Some e)
      | (f', None) => unmarshal f' rest
      end
  end.

(** The tail of [Flow.marshal], after the master tuple. *)
Definition marshal_tail (f : Flow) (attrs : list Attribute)
  : list Attribute :=
  let attrs :=
    append_if (SequenceAdjust_Filled C (SeqAdjOrig f)) attrs
      (SequenceAdjust_MarshalAttribute C (SeqAdjOrig f)) in
  let attrs :=
    append_if (SequenceAdjust_Filled C (SeqAdjReply f)) attrs
      (SequenceAdjust_MarshalAttribute C (SeqAdjReply f)) in
  let attrs :=
    append_if (SynProxy_Filled C (SynProxy f)) attrs
      (SynProxy_MarshalAttribute C (SynProxy f)) in
  attrs.

(** [func (f Flow) marshal() ([]netfilter.Attribute, error)]; the Go
    result [nil, err] is the empty list with the error. *)
Definition marshal (f : Flow) : list Attribute * option error :=
  if negb (Tuple_Filled C (TupleOrig f))
     || negb (Tuple_Filled C (TupleReply f))
  then ([], Some errNeedTuples)
  else
    let (to, err) := Tuple_MarshalAttribute C (TupleOrig f) CTATupleOrig in
    match err with
    | Some e => ([], Some e)
    | None =>
    let (tr, err) := Tuple_MarshalAttribute C (TupleReply f) CTATupleReply in
    match err with
    | Some e => ([], Some e)
    | None =>
    let attrs := [to; tr] in
    let attrs :=
      append_if (negb (Timeout f =? 0)) attrs
        (Num32_MarshalAttribute C (Timeout f) CTATimeout) in
    let attrs :=
      append_if (negb (Value (Status f) =? 0)) attrs
        (Status_MarshalAttribute C (Status f)) in
    let attrs :=
      append_if (negb (Mark f =? 0)) attrs
        (Num32_MarshalAttribute C (Mark f) CTAMark) in
    let attrs :=
      append_if (negb (Zone f =? 0)) attrs
        (Num16_MarshalAttribute C (Zone f) CTAZone) in
    let attrs :=
      append_if (ProtoInfo_Filled C (ProtoInfo f)) attrs
        (ProtoInfo_MarshalAttribute C (ProtoInfo f)) in
    let attrs :=
      append_if (Helper_Filled C (Helper f)) attrs
        (Helper_MarshalAttribute C (Helper f)) in
    if Tuple_Filled C (TupleMaster f) then
      let (tm, err) :=
        Tuple_MarshalAttribute C (TupleMaster f) CTATupleMaster in
      match err with
      | Some e => ([], Some e)
      | None => (marshal_tail f (attrs ++ [tm]), None)
      end
    else (marshal_tail f attrs, None)
    end
    end.

(** [func unmarshalFlow(nlm netlink.Message) (Flow, error)]: both results
    are returned on every path. *)
Definition unmarshalFlow (nlm : Message C) : Flow * option error :=
  let f := zeroFlow in
  let (qattrs, err) := UnmarshalNetlink C nlm in
  match err with
  | Some e => (f, Some e)
  | None =>
      let (f, err) := unmarshal f qattrs in
      match err with
      | Some e => (f, Some e)
      | None => (f, None)
      end
  end.

(** The loop of [unmarshalFlows], [out] being the slice built so far. *)
Fixpoint unmarshalFlows_loop (nlm : list (Message C)) (out : list Flow)
  : list Flow * option error :=
  match nlm with
  | [] => (out, None)
  | m :: rest =>
      let (f, err) := unmarshalFlow m in
      match err with
      | Some e => ([], Some e)
      | None => unmarshalFlows_loop rest (out ++ [f])
      end
  end.

(** [func unmarshalFlows(nlm []netlink.Message) ([]Flow, error)] *)
Definition unmarshalFlows (nlm : list (Message C))
  : list Flow * option error :=
  unmarshalFlows_loop nlm [].

End FlowCodec.

Arguments unmarshal_attr C f attr : simpl never.

(** ** A concrete implementation of the collaborators *)

(** The codecs of the sub-entities, the scalar wrappers and the attribute
    primitive, written after sections 3, 4.2 to 4.4 and 6 of the
    specification.  Nested groups are attributes with [Nested] set and the
    members as [Children]; integers travel big-endian. *)
Module SpecModel.

Definition byte_of_Z (z : Z) : byte :=
  match Byte.of_N (Z.to_N (z mod 256)) with
  | Some b => b
  | None => x00
  end.

Definition Z_of_byte (b : byte) : Z := Z.of_N (Byte.to_N b).

(** [n] bytes of [v], most significant first. *)
Fixpoint putUint (n : nat) (v : Z) : bytes :=
  match n with
  | O => []
  | S k => byte_of_Z (Z.shiftr v (8 * Z.of_nat k)) :: putUint k v
  end.

Fixpoint getUint_acc (acc : Z) (d : bytes) : Z :=
  match d with
  | [] => acc
  | b :: r => getUint_acc (acc * 256 + Z_of_byte b) r
  end.

Definition getUint (d : bytes) : Z := getUint_acc 0 d.

(** Four bytes read as a signed 32-bit integer, two's complement. *)
Definition getInt32 (d : bytes) : Z :=
  let u := getUint d in
  if u <? 2 ^ 31 then u else u - 2 ^ 32.

Definition leaf (t : Z) (d : bytes) : Attribute := mkAttribute t false d [].
Definition group (t : Z) (cs : list Attribute) : Attribute :=
  mkAttribute t true [] cs.

Definition has_length (n : nat) (d : bytes) : bool :=
  Nat.eqb (List.length d) n.

Definition nonempty (d : bytes) : bool :=
  match d with [] => false | _ :: _ => true end.

(** A decoder's walk over the members of a nested group: the first
    failing member ends it. *)
Fixpoint decode_children {S : Type}
    (step : S -> Attribute -> S * option error)
    (s : S) (cs : list Attribute) : S * option error :=
  match cs with
  | [] => (s, None)
  | c :: rest =>
      match step s c with
      | (s', Some e) => (s', Some e)
      | (s', None) => decode_children step s' rest
      end
  end.

(** Modelled from the spec: the transport's unwrapping of one raw message
    into its flat attribute sequence.  A raw message is represented by
    what unwrapping it gives: the sequence it carries, or a failure. *)
Inductive RawMessage :=
| Carrying (attrs : list Attribute)
| Garbled.

Definition UnmarshalNetlink (m : RawMessage)
  : list Attribute * option error :=
  match m with
  | Carrying attrs => (attrs, None)
  | Garbled => ([], Some errNetlink)
  end.

(** Modelled from the spec: the scalar accessors of the attribute
    primitive. *)
Definition Uint16 (a : Attribute) : Z := getUint (Data a) mod 2 ^ 16.
Definition Uint32 (a : Attribute) : Z := getUint (Data a) mod 2 ^ 32.

(** Modelled from the spec: [Num16] and [Num32] turn a bare integer into a
    single attribute of the given type. *)
Definition Num16_MarshalAttribute (v t : Z) : Attribute :=
  leaf t (putUint 2 v).
Definition Num32_MarshalAttribute (v t : Z) : Attribute :=
  leaf t (putUint 4 v).

(** *** Tuple (section 4.2) *)

Definition CTATupleIP : Z := 1.
Definition CTATupleProto : Z := 2.
Definition CTAIPv4Src : Z := 1.
Definition CTAIPv4Dst : Z := 2.
Definition CTAIPv6Src : Z := 3.
Definition CTAIPv6Dst : Z := 4.
Definition CTAProtoNum : Z := 1.
Definition CTAProtoSrcPort : Z := 2.
Definition CTAProtoDstPort : Z := 3.

(** Modelled from the spec: "true iff both addresses are set (non-empty)
    and protocol is nonzero". *)
Definition Tuple_Filled (t : Tuple) : bool :=
  nonempty (SourceAddress (IP t))
  && nonempty (DestinationAddress (IP t))
  && negb (Protocol (Proto t) =? 0).

Definition ip_member (ip : IPTuple) (c : Attribute)
  : IPTuple * option error :=
  let t := attrType c in
  let want := if (t =? CTAIPv4Src) || (t =? CTAIPv4Dst) then 4%nat
              else 16%nat in
  if negb (has_length want (Data c)) then (ip, Some (errMalformed "ip"))
  else if (t =? CTAIPv4Src) || (t =? CTAIPv6Src) then
    ({| SourceAddress := Data c;
        DestinationAddress := DestinationAddress ip |}, None)
  else if (t =? CTAIPv4Dst) || (t =? CTAIPv6Dst) then
    ({| SourceAddress := SourceAddress ip;
        DestinationAddress := Data c |}, None)
  else (ip, Some (errMalformed "ip")).

Definition proto_member (p : ProtoTuple) (c : Attribute)
  : ProtoTuple * option error :=
  let t := attrType c in
  if t =? CTAProtoNum then
    if has_length 1 (Data c) then
      ({| Protocol := getUint (Data c); SourcePort := SourcePort p;
          DestinationPort := DestinationPort p |}, None)
    else (p, Some (errMalformed "proto"))
  else if t =? CTAProtoSrcPort then
    if has_length 2 (Data c) then
      ({| Protocol := Protocol p; SourcePort := getUint (Data c);
          DestinationPort := DestinationPort p |}, None)
    else (p, Some (errMalformed "proto"))
  else if t =? CTAProtoDstPort then
    if has_length 2 (Data c) then
      ({| Protocol := Protocol p; SourcePort := SourcePort p;
          DestinationPort := getUint (Data c) |}, None)
    else (p, Some (errMalformed "proto"))
  else (p, Some (errMalformed "proto")).

Definition tuple_member (t : Tuple) (c : Attribute)
  : Tuple * option error :=
  if negb (Nested c) then (t, Some (errMalformed "tuple"))
  else if attrType c =? CTATupleIP then
    let (ip, err) := decode_children ip_member (IP t) (Children c) in
    ({| IP := ip; Proto := Proto t |}, err)
  else if attrType c =? CTATupleProto then
    let (p, err) := decode_children proto_member (Proto t) (Children c) in
    ({| IP := IP t; Proto := p |}, err)
  else (t, Some (errMalformed "tuple")).

(** Modelled from the spec: the value is a nested group holding an
    address sub-group and a protocol sub-group; an error in either
    propagates. *)
Definition Tuple_UnmarshalAttribute (t : Tuple) (a : Attribute)
  : Tuple * option error :=
  if negb (Nested a) then (t, Some (errMalformed "tuple"))
  else decode_children tuple_member t (Children a).

Definition proto_group (p : ProtoTuple) : Attribute :=
  group CTATupleProto
    [leaf CTAProtoNum (putUint 1 (Protocol p));
     leaf CTAProtoSrcPort (putUint 2 (SourcePort p));
     leaf CTAProtoDstPort (putUint 2 (DestinationPort p))].

(** Modelled from the spec: the address family comes from the byte length
    of the addresses, 4 or 16; any other length is an address-family
    error. *)
Definition Tuple_MarshalAttribute (t : Tuple) (code : Z)
  : Attribute * option error :=
  let src := SourceAddress (IP t) in
  let dst := DestinationAddress (IP t) in
  if has_length 4 src && has_length 4 dst then
    (group code [group CTATupleIP [leaf CTAIPv4Src src; leaf CTAIPv4Dst dst];
                 proto_group (Proto t)], None)
  else if has_length 16 src && has_length 16 dst then
    (group code [group CTATupleIP [leaf CTAIPv6Src src; leaf CTAIPv6Dst dst];
                 proto_group (Proto t)], None)
  else (mkAttribute 0 false [] [], Some errAddressFamily).

(** *** Status (section 4.3) *)

(** Modelled from the spec: the raw 32-bit value, no validation. *)
Definition Status_UnmarshalAttribute (s : Entities.Status) (a : Attribute)
  : Entities.Status * option error :=
  ({| Value := getUint (Data a) |}, None).

Definition Status_MarshalAttribute (s : Entities.Status) : Attribute :=
  leaf CTAStatus (putUint 4 (Value s)).

(** *** ProtoInfo, Helper, Counter, SecurityContext, Timestamp,
    SequenceAdjust, SynProxy (section 4.4) *)

Definition CTAProtoInfoTCP : Z := 1.
Definition CTAProtoInfoDCCP : Z := 2.
Definition CTAProtoInfoSCTP : Z := 3.

(** Modelled from the spec: "filled() is true iff any variant is
    populated". *)
Definition ProtoInfo_Filled (p : Entities.ProtoInfo) : bool :=
  match p with
  | ProtoInfoNone => false
  | _ => true
  end.

(** Modelled from the spec: the nested group's own attribute type selects
    one of the TCP, DCCP and SCTP variants. *)
Definition ProtoInfo_UnmarshalAttribute (p : Entities.ProtoInfo)
    (a : Attribute) : Entities.ProtoInfo * option error :=
  match Nested a, Children a with
  | true, [c] =>
      if attrType c =? CTAProtoInfoTCP then (ProtoInfoTCP (Data c), None)
      else if attrType c =? CTAProtoInfoDCCP then
        (ProtoInfoDCCP (Data c), None)
      else if attrType c =? CTAProtoInfoSCTP then
        (ProtoInfoSCTP (Data c), None)
      else (p, Some (errMalformed "protoinfo"))
  | _, _ => (p, Some (errMalformed "protoinfo"))
  end.

Definition ProtoInfo_MarshalAttribute (p : Entities.ProtoInfo) : Attribute :=
  group CTAProtoInfo
    match p with
    | ProtoInfoNone => []
    | ProtoInfoTCP s => [leaf CTAProtoInfoTCP s]
    | ProtoInfoDCCP s => [leaf CTAProtoInfoDCCP s]
    | ProtoInfoSCTP s => [leaf CTAProtoInfoSCTP s]
    end.

Definition CTAHelpName : Z := 1.
Definition CTAHelpInfo : Z := 2.

Definition Helper_Filled (h : Entities.Helper) : bool :=
  nonempty (Name h) || nonempty (Info h).

Definition helper_member (h : Entities.Helper) (c : Attribute)
  : Entities.Helper * option error :=
  if attrType c =? CTAHelpName then
    ({| Name := Data c; Info := Info h |}, None)
  else if attrType c =? CTAHelpInfo then
    ({| Name := Name h; Info := Data c |}, None)
  else (h, Some (errMalformed "helper")).

(** Modelled from the spec: a name string and an opaque data blob. *)
Definition Helper_UnmarshalAttribute (h : Entities.Helper) (a : Attribute)
  : Entities.Helper * option error :=
  if negb (Nested a) then (h, Some (errMalformed "helper"))
  else decode_children helper_member h (Children a).

Definition Helper_MarshalAttribute (h : Entities.Helper) : Attribute :=
  group CTAHelp [leaf CTAHelpName (Name h); leaf CTAHelpInfo (Info h)].

Definition CTACountersPackets : Z := 1.
Definition CTACountersBytes : Z := 2.

Definition counter_member (k : Counter) (c : Attribute)
  : Counter * option error :=
  if negb (has_length 8 (Data c)) then (k, Some (errMalformed "counter"))
  else if attrType c =? CTACountersPackets then
    ({| Packets := getUint (Data c); Bytes := Bytes k |}, None)
  else if attrType c =? CTACountersBytes then
    ({| Packets := Packets k; Bytes := getUint (Data c) |}, None)
  else (k, Some (errMalformed "counter")).

(** Modelled from the spec: independent packet count and byte count
    members, each a 64-bit unsigned integer. *)
Definition Counter_UnmarshalAttribute (k : Counter) (a : Attribute)
  : Counter * option error :=
  if negb (Nested a) then (k, Some (errMalformed "counter"))
  else decode_children counter_member k (Children a).

Definition CTASecCtxName : Z := 1.

(** Modelled from the spec: a single string value. *)
Definition Security_UnmarshalAttribute (s : Security) (a : Attribute)
  : Security * option error :=
  match Nested a, Children a with
  | true, [c] =>
      if attrType c =? CTASecCtxName then (Data c, None)
      else (s, Some (errMalformed "secctx"))
  | _, _ => (s, Some (errMalformed "secctx"))
  end.

Definition CTATimestampStart : Z := 1.
Definition CTATimestampStop : Z := 2.

Definition timestamp_member (t : Entities.Timestamp) (c : Attribute)
  : Entities.Timestamp * option error :=
  if negb (has_length 8 (Data c)) then (t, Some (errMalformed "timestamp"))
  else if attrType c =? CTATimestampStart then
    ({| Start := getUint (Data c); Stop := Stop t |}, None)
  else if attrType c =? CTATimestampStop then
    ({| Start := Start t; Stop := getUint (Data c) |}, None)
  else (t, Some (errMalformed "timestamp")).

(** Modelled from the spec: start and optional stop, in nanoseconds. *)
Definition Timestamp_UnmarshalAttribute (t : Entities.Timestamp)
    (a : Attribute) : Entities.Timestamp * option error :=
  if negb (Nested a) then (t, Some (errMalformed "timestamp"))
  else decode_children timestamp_member t (Children a).

Definition CTASeqAdjCorrectionPos : Z := 1.
Definition CTASeqAdjOffsetBefore : Z := 2.
Definition CTASeqAdjOffsetAfter : Z := 3.

Definition SequenceAdjust_Filled (s : SequenceAdjust) : bool :=
  negb (Position s =? 0) || negb (OffsetBefore s =? 0)
  || negb (OffsetAfter s =? 0).

Definition seqadj_member (s : SequenceAdjust) (c : Attribute)
  : SequenceAdjust * option error :=
  if negb (has_length 4 (Data c)) then (s, Some (errMalformed "seqadj"))
  else if attrType c =? CTASeqAdjCorrectionPos then
    ({| Direction := Direction s; Position := getUint (Data c);
        OffsetBefore := OffsetBefore s; OffsetAfter := OffsetAfter s |},
     None)
  else if attrType c =? CTASeqAdjOffsetBefore then
    ({| Direction := Direction s; Position := Position s;
        OffsetBefore := getInt32 (Data c); OffsetAfter := OffsetAfter s |},
     None)
  else if attrType c =? CTASeqAdjOffsetAfter then
    ({| Direction := Direction s; Position := Position s;
        OffsetBefore := OffsetBefore s; OffsetAfter := getInt32 (Data c) |},
     None)
  else (s, Some (errMalformed "seqadj")).

(** Modelled from the spec: correction position and signed offsets before
    and after; the direction is the one of the attribute's type code. *)
Definition SequenceAdjust_UnmarshalAttribute (s : SequenceAdjust)
    (a : Attribute) : SequenceAdjust * option error :=
  if negb (Nested a) then (s, Some (errMalformed "seqadj"))
  else
    decode_children seqadj_member
      {| Direction := attrType a =? CTASeqAdjReply; Position := Position s;
         OffsetBefore := OffsetBefore s; OffsetAfter := OffsetAfter s |}
      (Children a).

(** The type code is the one of the value's direction. *)
Definition SequenceAdjust_MarshalAttribute (s : SequenceAdjust)
  : Attribute :=
  group (if Direction s then CTASeqAdjReply else CTASeqAdjOrig)
    [leaf CTASeqAdjCorrectionPos (putUint 4 (Position s));
     leaf CTASeqAdjOffsetBefore (putUint 4 (OffsetBefore s));
     leaf CTASeqAdjOffsetAfter (putUint 4 (OffsetAfter s))].

Definition CTASynProxyISN : Z := 1.
Definition CTASynProxyOptions : Z := 2.
Definition CTASynProxyWScale : Z := 3.

Definition SynProxy_Filled (s : Entities.SynProxy) : bool :=
  negb (ISN s =? 0) || nonempty (Options s) || negb (WScale s =? 0).

Definition synproxy_member (s : Entities.SynProxy) (c : Attribute)
  : Entities.SynProxy * option error :=
  if attrType c =? CTASynProxyISN then
    ({| ISN := getUint (Data c); Options := Options s;
        WScale := WScale s |}, None)
  else if attrType c =? CTASynProxyOptions then
    ({| ISN := ISN s; Options := Data c; WScale := WScale s |}, None)
  else if attrType c =? CTASynProxyWScale then
    ({| ISN := ISN s; Options := Options s;
        WScale := getUint (Data c) |}, None)
  else (s, Some (errMalformed "synproxy")).

(** Modelled from the spec: initial sequence number, options blob, window
    scale. *)
Definition SynProxy_UnmarshalAttribute (s : Entities.SynProxy)
    (a : Attribute) : Entities.SynProxy * option error :=
  if negb (Nested a) then (s, Some (errMalformed "synproxy"))
  else decode_children synproxy_member s (Children a).

Definition SynProxy_MarshalAttribute (s : Entities.SynProxy) : Attribute :=
  group CTASynProxy
    [leaf CTASynProxyISN (putUint 4 (ISN s));
     leaf CTASynProxyOptions (Options s);
     leaf CTASynProxyWScale (putUint 1 (WScale s))].

(** The collaborators, assembled. *)
Definition model : Collaborators :=
  Build_Collaborators RawMessage UnmarshalNetlink Uint16 Uint32
    Num16_MarshalAttribute Num32_MarshalAttribute
    Tuple_Filled Tuple_UnmarshalAttribute Tuple_MarshalAttribute
    Status_UnmarshalAttribute Status_MarshalAttribute
    ProtoInfo_Filled ProtoInfo_UnmarshalAttribute ProtoInfo_MarshalAttribute
    Helper_Filled Helper_UnmarshalAttribute Helper_MarshalAttribute
    Counter_UnmarshalAttribute Security_UnmarshalAttribute
    Timestamp_UnmarshalAttribute
    SequenceAdjust_Filled SequenceAdjust_UnmarshalAttribute
    SequenceAdjust_MarshalAttribute
    SynProxy_Filled SynProxy_UnmarshalAttribute SynProxy_MarshalAttribute.

End SpecModel.

(** ** The known top-level type codes *)

(** The type codes of the table of section 6, in the order of the cases of
    [Flow.unmarshal]. *)
Definition known_types : list Z :=
  [CTATimeout; CTAID; CTAUse; CTAMark; CTAZone; CTALabels; CTALabelsMask;
   CTATupleOrig; CTATupleReply; CTATupleMaster; CTAStatus; CTAProtoInfo;
   CTAHelp; CTACountersOrig; CTACountersReply; CTASecCtx; CTATimestamp;
   CTASeqAdjOrig; CTASeqAdjReply; CTASynProxy].

Definition known (t : Z) : bool := existsb (Z.eqb t) known_types.

(** The codes whose case copies a scalar into the Flow. *)
Definition scalar_types : list Z :=
  [CTATimeout; CTAID; CTAUse; CTAMark; CTAZone; CTALabels; CTALabelsMask].

Definition scalar (t : Z) : bool := existsb (Z.eqb t) scalar_types.

(** The case of the [switch] an attribute type selects. *)
Inductive Case :=
| KTimeout | KID | KUse | KMark | KZone | KLabels | KLabelsMask
| KTupleOrig | KTupleReply | KTupleMaster | KStatus | KProtoInfo | KHelp
| KCountersOrig | KCountersReply | KSecCtx | KTimestamp
| KSeqAdjOrig | KSeqAdjReply | KSynProxy.

Definition case_code (k : Case) : Z :=
  match k with
  | KTimeout => CTATimeout | KID => CTAID | KUse => CTAUse
  | KMark => CTAMark | KZone => CTAZone | KLabels => CTALabels
  | KLabelsMask => CTALabelsMask | KTupleOrig => CTATupleOrig
  | KTupleReply => CTATupleReply | KTupleMaster => CTATupleMaster
  | KStatus => CTAStatus | KProtoInfo => CTAProtoInfo | KHelp => CTAHelp
  | KCountersOrig => CTACountersOrig | KCountersReply => CTACountersReply
  | KSecCtx => CTASecCtx | KTimestamp => CTATimestamp
  | KSeqAdjOrig => CTASeqAdjOrig | KSeqAdjReply => CTASeqAdjReply
  | KSynProxy => CTASynProxy
  end.

Definition case_of (t : Z) : option Case :=
  if t =? CTATimeout then Some KTimeout
  else if t =? CTAID then Some KID
  else if t =? CTAUse then Some KUse
  else if t =? CTAMark then Some KMark
  else if t =? CTAZone then Some KZone
  else if t =? CTALabels then Some KLabels
  else if t =? CTALabelsMask then Some KLabelsMask
  else if t =? CTATupleOrig then Some KTupleOrig
  else if t =? CTATupleReply then Some KTupleReply
  else if t =? CTATupleMaster then Some KTupleMaster
  else if t =? CTAStatus then Some KStatus
  else if t =? CTAProtoInfo then Some KProtoInfo
  else if t =? CTAHelp then Some KHelp
  else if t =? CTACountersOrig then Some KCountersOrig
  else if t =? CTACountersReply then Some KCountersReply
  else if t =? CTASecCtx then Some KSecCtx
  else if t =? CTATimestamp then Some KTimestamp
  else if t =? CTASeqAdjOrig then Some KSeqAdjOrig
  else if t =? CTASeqAdjReply then Some KSeqAdjReply
  else if t =? CTASynProxy then Some KSynProxy
  else None.

(** What the selected case does to the receiver. *)
Definition run_case (C : Collaborators) (k : Case) (f : Flow)
    (attr : Attribute) : Flow * option error :=
  match k with
  | KTimeout => (set_Timeout (Uint32 C attr) f, None)
  | KID => (set_ID (Uint32 C attr) f, None)
  | KUse => (set_Use (Uint32 C attr) f, None)
  | KMark => (set_Mark (Uint32 C attr) f, None)
  | KZone => (set_Zone (Uint16 C attr) f, None)
  | KLabels => (set_Labels (Data attr) f, None)
  | KLabelsMask => (set_LabelsMask (Data attr) f, None)
  | KTupleOrig =>
      let (v, err) := Tuple_UnmarshalAttribute C (TupleOrig f) attr in
      (set_TupleOrig v f, err)
  | KTupleReply =>
      let (v, err) := Tuple_UnmarshalAttribute C (TupleReply f) attr in
      (set_TupleReply v f, err)
  | KTupleMaster =>
      let (v, err) := Tuple_UnmarshalAttribute C (TupleMaster f) attr in
      (set_TupleMaster v f, err)
  | KStatus =>
      let (v, err) := Status_UnmarshalAttribute C (Status f) attr in
      (set_Status v f, err)
  | KProtoInfo =>
      let (v, err) := ProtoInfo_UnmarshalAttribute C (ProtoInfo f) attr in
      (set_ProtoInfo v f, err)
  | KHelp =>
      let (v, err) := Helper_UnmarshalAttribute C (Helper f) attr in
      (set_Helper v f, err)
  | KCountersOrig =>
      let (v, err) := Counter_UnmarshalAttribute C (CountersOrig f) attr in
      (set_CountersOrig v f, err)
  | KCountersReply =>
      let (v, err) := Counter_UnmarshalAttribute C (CountersReply f) attr in
      (set_CountersReply v f, err)
  | KSecCtx =>
      let (v, err) := Security_UnmarshalAttribute C (SecurityContext f) attr in
      (set_SecurityContext v f, err)
  | KTimestamp =>
      let (v, err) := Timestamp_UnmarshalAttribute C (Timestamp f) attr in
      (set_Timestamp v f, err)
  | KSeqAdjOrig =>
      let (v, err) := SequenceAdjust_UnmarshalAttribute C (SeqAdjOrig f) attr in
      (set_SeqAdjOrig v f, err)
  | KSeqAdjReply =>
      let (v, err) := SequenceAdjust_UnmarshalAttribute C (SeqAdjReply f) attr in
      (set_SeqAdjReply v f, err)
  | KSynProxy =>
      let (v, err) := SynProxy_UnmarshalAttribute C (SynProxy f) attr in
      (set_SynProxy v f, err)
  end.

(** The Flow a decode hands over when it succeeds. *)
Definition outcome (r : Flow * option error) : option Flow :=
  match r with
  | (f, None) => Some f
  | (_, Some _) => None
  end.

(** ** Statements *)

(** An attribute that is emitted only when its predicate holds. *)
Definition optional (b : bool) (a : Attribute) : list Attribute :=
  if b then [a] else [].

(** The attribute list as section 4.1 words it: the two tuples, then each
    optional attribute in the fixed order, [to], [tr] and [tm] being the
    encoded original, reply and master tuple. *)
Definition emitted (C : Collaborators) (f : Flow) (to tr tm : Attribute)
  : list Attribute :=
  [to; tr]
  ++ optional (negb (Timeout f =? 0))
       (Num32_MarshalAttribute C (Timeout f) CTATimeout)
  ++ optional (negb (Value (Status f) =? 0))
       (Status_MarshalAttribute C (Status f))
  ++ optional (negb (Mark f =? 0)) (Num32_MarshalAttribute C (Mark f) CTAMark)
  ++ optional (negb (Zone f =? 0)) (Num16_MarshalAttribute C (Zone f) CTAZone)
  ++ optional (ProtoInfo_Filled C (ProtoInfo f))
       (ProtoInfo_MarshalAttribute C (ProtoInfo f))
  ++ optional (Helper_Filled C (Helper f))
       (Helper_MarshalAttribute C (Helper f))
  ++ optional (Tuple_Filled C (TupleMaster f)) tm
  ++ optional (SequenceAdjust_Filled C (SeqAdjOrig f))
       (SequenceAdjust_MarshalAttribute C (SeqAdjOrig f))
  ++ optional (SequenceAdjust_Filled C (SeqAdjReply f))
       (SequenceAdjust_MarshalAttribute C (SeqAdjReply f))
  ++ optional (SynProxy_Filled C (SynProxy f))
       (SynProxy_MarshalAttribute C (SynProxy f)).

(** [to], [tr] and [tm] are what the tuple encoder makes of the three
    tuples under their type codes (the master tuple only when filled). *)
Definition tuple_attributes (C : Collaborators) (f : Flow)
    (to tr tm : Attribute) : Prop :=
  Tuple_Filled C (TupleOrig f) = true
  /\ Tuple_Filled C (TupleReply f) = true
  /\ Tuple_MarshalAttribute C (TupleOrig f) CTATupleOrig = (to, None)
  /\ Tuple_MarshalAttribute C (TupleReply f) CTATupleReply = (tr, None)
  /\ (Tuple_Filled C (TupleMaster f) = true ->
      Tuple_MarshalAttribute C (TupleMaster f) CTATupleMaster = (tm, None)).

(** Two Flows agree on the twelve fields [Flow.marshal] reads. *)
Definition same_emitted_fields (f g : Flow) : Prop :=
  TupleOrig f = TupleOrig g
  /\ TupleReply f = TupleReply g
  /\ Timeout f = Timeout g
  /\ Status f = Status g
  /\ Mark f = Mark g
  /\ Zone f = Zone g
  /\ ProtoInfo f = ProtoInfo g
  /\ Helper f = Helper g
  /\ TupleMaster f = TupleMaster g
  /\ SeqAdjOrig f = SeqAdjOrig g
  /\ SeqAdjReply f = SeqAdjReply g
  /\ SynProxy f = SynProxy g.

(** No optional scalar is set and no optional sub-entity is filled. *)
Definition nothing_optional (C : Collaborators) (f : Flow) : Prop :=
  Timeout f = 0
  /\ Value (Status f) = 0
  /\ Mark f = 0
  /\ Zone f = 0
  /\ ProtoInfo_Filled C (ProtoInfo f) = false
  /\ Helper_Filled C (Helper f) = false
  /\ Tuple_Filled C (TupleMaster f) = false
  /\ SequenceAdjust_Filled C (SeqAdjOrig f) = false
  /\ SequenceAdjust_Filled C (SeqAdjReply f) = false
  /\ SynProxy_Filled C (SynProxy f) = false.

(** Every optional scalar is set and every optional sub-entity is
    filled. *)
Definition populated (C : Collaborators) (f : Flow) : Prop :=
  Timeout f <> 0
  /\ Value (Status f) <> 0
  /\ Mark f <> 0
  /\ Zone f <> 0
  /\ ProtoInfo_Filled C (ProtoInfo f) = true
  /\ Helper_Filled C (Helper f) = true
  /\ Tuple_Filled C (TupleMaster f) = true
  /\ SequenceAdjust_Filled C (SeqAdjOrig f) = true
  /\ SequenceAdjust_Filled C (SeqAdjReply f) = true
  /\ SynProxy_Filled C (SynProxy f) = true.

(** The attribute [a] carries the type code [code], and a zero-valued
    receiver decodes it to [v]. *)
Definition reads_back {T : Type}
    (decode : T -> Attribute -> T * option error) (zero : T)
    (code : Z) (a : Attribute) (v : T) : Prop :=
  attrType a = code /\ decode zero a = (v, None).

Definition tuple_reads_back (C : Collaborators) (t : Tuple) (code : Z)
  : Prop :=
  forall a,
    Tuple_MarshalAttribute C t code = (a, None) ->
    reads_back (Tuple_UnmarshalAttribute C) zeroTuple code a t.

(** What the round trip of a Flow asks of its collaborators: each
    attribute encoded from a field of [f] carries the type code of that
    field, and the decoder of the field reads the value back. *)
Definition sub_codecs_invert (C : Collaborators) (f : Flow) : Prop :=
  tuple_reads_back C (TupleOrig f) CTATupleOrig
  /\ tuple_reads_back C (TupleReply f) CTATupleReply
  /\ tuple_reads_back C (TupleMaster f) CTATupleMaster
  /\ (attrType (Num32_MarshalAttribute C (Timeout f) CTATimeout) = CTATimeout
      /\ Uint32 C (Num32_MarshalAttribute C (Timeout f) CTATimeout)
         = Timeout f)
  /\ reads_back (Status_UnmarshalAttribute C) zeroStatus CTAStatus
       (Status_MarshalAttribute C (Status f)) (Status f)
  /\ (attrType (Num32_MarshalAttribute C (Mark f) CTAMark) = CTAMark
      /\ Uint32 C (Num32_MarshalAttribute C (Mark f) CTAMark) = Mark f)
  /\ (attrType (Num16_MarshalAttribute C (Zone f) CTAZone) = CTAZone
      /\ Uint16 C (Num16_MarshalAttribute C (Zone f) CTAZone) = Zone f)
  /\ reads_back (ProtoInfo_UnmarshalAttribute C) ProtoInfoNone CTAProtoInfo
       (ProtoInfo_MarshalAttribute C (ProtoInfo f)) (ProtoInfo f)
  /\ reads_back (Helper_UnmarshalAttribute C) zeroHelper CTAHelp
       (Helper_MarshalAttribute C (Helper f)) (Helper f)
  /\ reads_back (SequenceAdjust_UnmarshalAttribute C) zeroSequenceAdjust
       CTASeqAdjOrig
       (SequenceAdjust_MarshalAttribute C (SeqAdjOrig f)) (SeqAdjOrig f)
  /\ reads_back (SequenceAdjust_UnmarshalAttribute C) zeroSequenceAdjust
       CTASeqAdjReply
       (SequenceAdjust_MarshalAttribute C (SeqAdjReply f)) (SeqAdjReply f)
  /\ reads_back (SynProxy_UnmarshalAttribute C) zeroSynProxy CTASynProxy
       (SynProxy_MarshalAttribute C (SynProxy f)) (SynProxy f).

(** The address lengths the tuple encoder of section 4.2 accepts. *)
Definition address_family_ok (t : Tuple) : Prop :=
  (List.length (SourceAddress (IP t)) = 4%nat
   /\ List.length (DestinationAddress (IP t)) = 4%nat)
  \/ (List.length (SourceAddress (IP t)) = 16%nat
      /\ List.length (DestinationAddress (IP t)) = 16%nat).

(** The field that case [k] of the [switch] writes holds the same value in
    [f] and in [g]. *)
Definition same_field (k : Case) (f g : Flow) : Prop :=
  match k with
  | KTimeout => Timeout f = Timeout g
  | KID => ID f = ID g
  | KUse => Use f = Use g
  | KMark => Mark f = Mark g
  | KZone => Zone f = Zone g
  | KLabels => Labels f = Labels g
  | KLabelsMask => LabelsMask f = LabelsMask g
  | KTupleOrig => TupleOrig f = TupleOrig g
  | KTupleReply => TupleReply f = TupleReply g
  | KTupleMaster => TupleMaster f = TupleMaster g
  | KStatus => Status f = Status g
  | KProtoInfo => ProtoInfo f = ProtoInfo g
  | KHelp => Helper f = Helper g
  | KCountersOrig => CountersOrig f = CountersOrig g
  | KCountersReply => CountersReply f = CountersReply g
  | KSecCtx => SecurityContext f = SecurityContext g
  | KTimestamp => Timestamp f = Timestamp g
  | KSeqAdjOrig => SeqAdjOrig f = SeqAdjOrig g
  | KSeqAdjReply => SeqAdjReply f = SeqAdjReply g
  | KSynProxy => SynProxy f = SynProxy g
  end.

(** The attributes of [l] that are not of a scalar type, in their
    order. *)
Definition without_scalars (l : list Attribute) : list Attribute :=
  filter (fun b => negb (scalar (attrType b))) l.

(** [f] and [g] hold the same in every field that a case for a composite
    attribute writes. *)
Definition same_composites (f g : Flow) : Prop :=
  forall k, scalar (case_code k) = false -> same_field k f g.

Definition Case_eq_dec (k j : Case) : {k = j} + {k <> j}.
Proof. decide equality. Defined.

(** The attribute carries the type code [code]. *)
Definition of_code (code : Z) (a : Attribute) : bool := attrType a =? code.

(** The zero value of no optional sub-entity counts as filled. *)
Definition zero_unfilled (C : Collaborators) : Prop :=
  Tuple_Filled C zeroTuple = false
  /\ ProtoInfo_Filled C ProtoInfoNone = false
  /\ Helper_Filled C zeroHelper = false
  /\ SequenceAdjust_Filled C zeroSequenceAdjust = false
  /\ SynProxy_Filled C zeroSynProxy = false.

(** The type codes [Flow.marshal] emits under, in the order it emits
    them. *)
Definition encode_types : list Z :=
  [CTATupleOrig; CTATupleReply; CTATimeout; CTAStatus; CTAMark; CTAZone;
   CTAProtoInfo; CTAHelp; CTATupleMaster; CTASeqAdjOrig; CTASeqAdjReply;
   CTASynProxy].

(** Each attribute that encode makes from a field of [f] carries the type
    code of that field; nothing is asked of a field that encode skips. *)
Definition encoders_keep_codes (C : Collaborators) (f : Flow) : Prop :=
  (forall a, Tuple_MarshalAttribute C (TupleOrig f) CTATupleOrig = (a, None) ->
             attrType a = CTATupleOrig)
  /\ (forall a, Tuple_MarshalAttribute C (TupleReply f) CTATupleReply
                = (a, None) ->
                attrType a = CTATupleReply)
  /\ (Timeout f <> 0 ->
      attrType (Num32_MarshalAttribute C (Timeout f) CTATimeout) = CTATimeout)
  /\ (Value (Status f) <> 0 ->
      attrType (Status_MarshalAttribute C (Status f)) = CTAStatus)
  /\ (Mark f <> 0 ->
      attrType (Num32_MarshalAttribute C (Mark f) CTAMark) = CTAMark)
  /\ (Zone f <> 0 ->
      attrType (Num16_MarshalAttribute C (Zone f) CTAZone) = CTAZone)
  /\ (ProtoInfo_Filled C (ProtoInfo f) = true ->
      attrType (ProtoInfo_MarshalAttribute C (ProtoInfo f)) = CTAProtoInfo)
  /\ (Helper_Filled C (Helper f) = true ->
      attrType (Helper_MarshalAttribute C (Helper f)) = CTAHelp)
  /\ (Tuple_Filled C (TupleMaster f) = true ->
      forall a, Tuple_MarshalAttribute C (TupleMaster f) CTATupleMaster
                = (a, None) ->
                attrType a = CTATupleMaster)
  /\ (SequenceAdjust_Filled C (SeqAdjOrig f) = true ->
      attrType (SequenceAdjust_MarshalAttribute C (SeqAdjOrig f))
      = CTASeqAdjOrig)
  /\ (SequenceAdjust_Filled C (SeqAdjReply f) = true ->
      attrType (SequenceAdjust_MarshalAttribute C (SeqAdjReply f))
      = CTASeqAdjReply)
  /\ (SynProxy_Filled C (SynProxy f) = true ->
      attrType (SynProxy_MarshalAttribute C (SynProxy f)) = CTASynProxy).

(** The codes of [l] that the flags of [bs] keep, in the order of [l]. *)
Fixpoint select (bs : list bool) (l : list Z) : list Z :=
  match bs, l with
  | b :: bs', x :: l' => (if b then [x] else []) ++ select bs' l'
  | _, _ => []
  end.

(** The values a tuple holds are values of their Go types: an 8-bit
    protocol number and 16-bit ports. *)
Definition tuple_in_range (t : Tuple) : Prop :=
  0 <= Protocol (Proto t) < 2 ^ 8
  /\ 0 <= SourcePort (Proto t) < 2 ^ 16
  /\ 0 <= DestinationPort (Proto t) < 2 ^ 16.

(** A 32-bit position and signed 32-bit offsets. *)
Definition seqadj_in_range (s : SequenceAdjust) : Prop :=
  0 <= Position s < 2 ^ 32
  /\ - 2 ^ 31 <= OffsetBefore s < 2 ^ 31
  /\ - 2 ^ 31 <= OffsetAfter s < 2 ^ 31.

(** The integers of the fields encode emits are values of their
    fixed-width types (the embedding keeps them in [Z]). *)
Definition in_range (f : Flow) : Prop :=
  0 <= Timeout f < 2 ^ 32
  /\ 0 <= Value (Status f) < 2 ^ 32
  /\ 0 <= Mark f < 2 ^ 32
  /\ 0 <= Zone f < 2 ^ 16
  /\ tuple_in_range (TupleOrig f)
  /\ tuple_in_range (TupleReply f)
  /\ tuple_in_range (TupleMaster f)
  /\ seqadj_in_range (SeqAdjOrig f)
  /\ seqadj_in_range (SeqAdjReply f)
  /\ 0 <= ISN (SynProxy f) < 2 ^ 32
  /\ 0 <= WScale (SynProxy f) < 2 ^ 8.

(** Each sequence adjustment is marked with the direction of the field it
    sits in. *)
Definition directions_set (f : Flow) : Prop :=
  Direction (SeqAdjOrig f) = false /\ Direction (SeqAdjReply f) = true.

(** ** Inputs of the examples *)

Definition ip4 (a b c d : Z) : bytes := map SpecModel.byte_of_Z [a; b; c; d].

Definition tcp_tuple (src dst : bytes) (sp dp : Z) : Tuple :=
  {| IP := {| SourceAddress := src; DestinationAddress := dst |};
     Proto := {| Protocol := 6; SourcePort := sp; DestinationPort := dp |} |}.

(** A Flow with every optional field set. *)
Definition full_flow : Flow :=
  {| ID := 0; Timeout := 120; Timestamp := zeroTimestamp;
     Status := {| Value := 12 |};
     ProtoInfo := ProtoInfoTCP (map SpecModel.byte_of_Z [3; 7; 7]);
     Helper := {| Name := map SpecModel.byte_of_Z [102; 116; 112];
                  Info := [] |};
     Zone := 9;
     CountersOrig := zeroCounter; CountersReply := zeroCounter;
     SecurityContext := [];
     TupleOrig := tcp_tuple (ip4 10 0 0 1) (ip4 10 0 0 2) 1234 80;
     TupleReply := tcp_tuple (ip4 10 0 0 2) (ip4 10 0 0 1) 80 1234;
     TupleMaster := tcp_tuple (ip4 10 0 0 1) (ip4 10 0 0 2) 4321 21;
     SeqAdjOrig := {| Direction := false; Position := 5; OffsetBefore := 1;
                      OffsetAfter := 2 |};
     SeqAdjReply := {| Direction := true; Position := 6; OffsetBefore := 3;
                       OffsetAfter := 4 |};
     Labels := []; LabelsMask := []; Mark := 7; Use := 0;
     SynProxy := {| ISN := 1000; Options := map SpecModel.byte_of_Z [2; 4];
                    WScale := 7 |} |}.

Definition timeout_attr (v : Z) : Attribute :=
  SpecModel.Num32_MarshalAttribute v CTATimeout.
Definition mark_attr (v : Z) : Attribute :=
  SpecModel.Num32_MarshalAttribute v CTAMark.
Definition unknown_attr : Attribute := SpecModel.leaf 99 [].
Definition malformed_tuple_attr : Attribute := SpecModel.leaf CTATupleOrig [].

(** [full_flow] with the same sequence adjustment in both directions. *)
Definition twin_seqadj_flow : Flow :=
  set_SeqAdjReply (SeqAdjOrig full_flow) full_flow.

(** A tuple that is filled and whose addresses are five bytes long. *)
Definition odd_tuple : Tuple :=
  tcp_tuple (map SpecModel.byte_of_Z [10; 0; 0; 0; 1])
    (map SpecModel.byte_of_Z [10; 0; 0; 0; 2]) 1234 80.

(** A Flow fresh from the constructor, with a timeout and a status. *)
Definition fresh_flow : Flow :=
  NewFlow 6 12 (ip4 10 0 0 1) (ip4 10 0 0 2) 1234 80 120 0.

(** A status attribute. *)
Definition status_attr (v : Z) : Attribute :=
  SpecModel.Status_MarshalAttribute {| Value := v |}.

(** The Flow of the constructor with nothing optional set. *)
Definition plain_flow : Flow :=
  NewFlow 6 0 (ip4 10 0 0 1) (ip4 10 0 0 2) 1234 80 0 0.

(** [plain_flow] with a filled master tuple of five-byte addresses. *)
Definition master_odd_flow : Flow := set_TupleMaster odd_tuple plain_flow.

(** A message that decodes, and one with an attribute of unknown type
    after a timeout. *)
Definition good_message (timeout : Z) : SpecModel.RawMessage :=
  SpecModel.Carrying [timeout_attr timeout].
Definition bad_message : SpecModel.RawMessage :=
  SpecModel.Carrying [timeout_attr 120; unknown_attr].

(** A zone attribute, and a sequence with a repeated mark and a zone
    between two timeouts. *)
Definition zone_attr (v : Z) : Attribute :=
  SpecModel.Num16_MarshalAttribute v CTAZone.
Definition mixed_attrs : list Attribute :=
  [timeout_attr 1; mark_attr 3; zone_attr 9; timeout_attr 2; mark_attr 4].

(** * Properties *)

(** ** The dispatch *)

Lemma case_of_code (t : Z) (k : Case) : case_of t = Some k -> t = case_code k.
Proof.
  unfold case_of.
  repeat match goal with
         | |- context [?a =? ?b] => destruct (Z.eqb_spec a b)
         end; intros H; inversion H; subst; reflexivity.
Qed.

Lemma case_of_known (t : Z) : case_of t = None <-> known t = false.
Proof.
  unfold case_of, known, known_types.
  cbn [existsb].
  repeat (match goal with
          | |- context [?a =? ?b] => destruct (Z.eqb a b)
          end; cbn [orb]; [split; congruence|]).
  split; congruence.
Qed.

Lemma unmarshal_attr_case (C : Collaborators) (f : Flow) (a : Attribute) :
  unmarshal_attr C f a =
  match case_of (attrType a) with
  | Some k => run_case C k f a
  | None => (f, Some (errAttributeUnknown (AttributeType (attrType a))))
  end.
Proof.
  unfold unmarshal_attr, case_of, AttributeType.
  repeat match goal with
         | |- context [?a =? ?b] => destruct (Z.eqb a b); [reflexivity|]
         end.
  reflexivity.
Qed.

Lemma unmarshal_app (C : Collaborators) (l1 l2 : list Attribute) (f : Flow) :
  unmarshal C f (l1 ++ l2) =
  match unmarshal C f l1 with
  | (f', None) => unmarshal C f' l2
  | (f', Some e) => (f', Some e)
  end.
Proof.
  revert f.
  induction l1 as [|a l1 IH]; intros f; simpl.
  - reflexivity.
  - destruct (unmarshal_attr C f a) as [f' [e|]]; [reflexivity|apply IH].
Qed.

(** ** The constructor *)

(** C6.  For every protocol, status flags, pair of addresses of any length,
    pair of ports, timeout and mark, [NewFlow] returns (it cannot fail and
    validates nothing) the Flow whose [Status.Value], [Timeout] and [Mark]
    are the given ones, whose original tuple goes from the source address
    and port to the destination address and port, whose reply tuple is the
    same with source and destination swapped and the same protocol, and
    whose other fields all hold their zero value. *)
Theorem NewFlow_fields (proto status : Z) (srcAddr destAddr : bytes)
    (srcPort destPort timeout mark : Z) :
  NewFlow proto status srcAddr destAddr srcPort destPort timeout mark =
  {| ID := 0;
     Timeout := timeout;
     Timestamp := zeroTimestamp;
     Status := {| Value := status |};
     ProtoInfo := ProtoInfoNone;
     Helper := zeroHelper;
     Zone := 0;
     CountersOrig := zeroCounter;
     CountersReply := zeroCounter;
     SecurityContext := [];
     TupleOrig :=
       {| IP := {| SourceAddress := srcAddr;
                   DestinationAddress := destAddr |};
          Proto := {| Protocol := proto; SourcePort := srcPort;
                      DestinationPort := destPort |} |};
     TupleReply :=
       {| IP := {| SourceAddress := destAddr;
                   DestinationAddress := srcAddr |};
          Proto := {| Protocol := proto; SourcePort := destPort;
                      DestinationPort := srcPort |} |};
     TupleMaster := zeroTuple;
     SeqAdjOrig := zeroSequenceAdjust;
     SeqAdjReply := zeroSequenceAdjust;
     Labels := [];
     LabelsMask := [];
     Mark := mark;
     Use := 0;
     SynProxy := zeroSynProxy |}.
Proof.
  unfold NewFlow, zeroFlow.
  cbn [set_Status set_Timeout set_Mark set_TupleOrig set_TupleReply
       TupleOrig TupleReply].
  unfold set_SourceAddress, set_DestinationAddress, set_SourcePort,
    set_DestinationPort, set_Protocol, zeroTuple.
  cbn [IP Proto SourceAddress DestinationAddress Protocol SourcePort
       DestinationPort].
  reflexivity.
Qed.

(** The example of section 8: 10.0.0.1:1234 to 10.0.0.2:80 over TCP. *)
Example NewFlow_example :
  let f := NewFlow 6 12 (ip4 10 0 0 1) (ip4 10 0 0 2) 1234 80 120 7 in
  TupleOrig f = tcp_tuple (ip4 10 0 0 1) (ip4 10 0 0 2) 1234 80
  /\ TupleReply f = tcp_tuple (ip4 10 0 0 2) (ip4 10 0 0 1) 80 1234
  /\ Timeout f = 120 /\ Mark f = 7.
Proof. repeat split. Qed.

(** ** Batch conversion *)

Section Batch.

Variable C : Collaborators.

Lemma unmarshalFlow_ok (m : Message C) :
  snd (unmarshalFlow C m) = None ->
  unmarshalFlow C m = (fst (unmarshalFlow C m), None).
Proof.
  destruct (unmarshalFlow C m) as [f e]; simpl; intros ->; reflexivity.
Qed.

(** The loop appends the decoded messages to what it was given, in the
    order of the input. *)
Lemma unmarshalFlows_loop_ok (nlm : list (Message C)) :
  forall out,
    (forall m, In m nlm -> snd (unmarshalFlow C m) = None) ->
    unmarshalFlows_loop C nlm out =
    (out ++ map (fun m => fst (unmarshalFlow C m)) nlm, None).
Proof.
  induction nlm as [|m rest IH]; intros out Hok; simpl.
  - now rewrite app_nil_r.
  - rewrite (unmarshalFlow_ok m) by (apply Hok; now left).
    rewrite IH by (intros x Hx; apply Hok; now right).
    now rewrite <- app_assoc.
Qed.

(** The loop stops at the first message whose decode fails, whatever it
    has collected. *)
Lemma unmarshalFlows_loop_error (pre : list (Message C)) :
  forall out m post f e,
    (forall x, In x pre -> snd (unmarshalFlow C x) = None) ->
    unmarshalFlow C m = (f, Some e) ->
    unmarshalFlows_loop C (pre ++ m :: post) out = ([], Some e).
Proof.
  induction pre as [|x pre IH]; intros out m post f e Hok Hm; simpl.
  - now rewrite Hm.
  - rewrite (unmarshalFlow_ok x) by (apply Hok; now left).
    apply IH with (f := f); [|assumption].
    intros y Hy; apply Hok; now right.
Qed.

End Batch.

(** C8.  When each of the N raw messages decodes without error, batch
    decode reports no error and returns N Flows, the i-th of which is the
    decode of the i-th message. *)
Theorem unmarshalFlows_preserves_order (C : Collaborators)
    (nlm : list (Message C)) :
  (forall m, In m nlm -> snd (unmarshalFlow C m) = None) ->
  snd (unmarshalFlows C nlm) = None
  /\ List.length (fst (unmarshalFlows C nlm)) = List.length nlm
  /\ forall i m,
       nth_error nlm i = Some m ->
       nth_error (fst (unmarshalFlows C nlm)) i
       = Some (fst (unmarshalFlow C m)).
Proof.
  intros Hok. unfold unmarshalFlows.
  rewrite unmarshalFlows_loop_ok by assumption. simpl.
  repeat split.
  - apply length_map.
  - intros i m Hi.
    apply (map_nth_error (fun x => fst (unmarshalFlow C x)) i nlm Hi).
Qed.

(** C9.  When message k fails to decode and the messages before it all
    decode, batch decode returns no Flow at all and the error of message
    k. *)
Theorem unmarshalFlows_all_or_nothing (C : Collaborators)
    (pre post : list (Message C)) (m : Message C) (e : error) :
  (forall x, In x pre -> snd (unmarshalFlow C x) = None) ->
  snd (unmarshalFlow C m) = Some e ->
  unmarshalFlows C (pre ++ m :: post) = ([], Some e).
Proof.
  intros Hok Hm. unfold unmarshalFlows.
  destruct (unmarshalFlow C m) as [f e'] eqn:E. simpl in Hm. subst e'.
  now apply unmarshalFlows_loop_error with (f := f).
Qed.

(** ** Encoding *)

Lemma append_optional (b : bool) (l : list Attribute) (a : Attribute) :
  append_if b l a = l ++ optional b a.
Proof. destruct b; simpl; [reflexivity|now rewrite app_nil_r]. Qed.

(** [Flow.marshal] reads nothing but the twelve emitted fields. *)
Lemma marshal_same_emitted_fields (C : Collaborators) (f g : Flow) :
  same_emitted_fields f g -> marshal C g = marshal C f.
Proof.
  destruct f, g. unfold same_emitted_fields. simpl.
  intros (-> & -> & -> & -> & -> & -> & -> & -> & -> & -> & -> & ->).
  reflexivity.
Qed.

(** A successful encode, taken apart. *)
Lemma marshal_inv (C : Collaborators) (f : Flow) (attrs : list Attribute) :
  marshal C f = (attrs, None) ->
  exists to tr tm,
    tuple_attributes C f to tr tm /\ attrs = emitted C f to tr tm.
Proof.
  unfold marshal, tuple_attributes.
  destruct (Tuple_Filled C (TupleOrig f)); [|discriminate].
  destruct (Tuple_Filled C (TupleReply f)); [|discriminate].
  cbn [negb orb].
  destruct (Tuple_MarshalAttribute C (TupleOrig f) CTATupleOrig)
    as [to [e|]]; [discriminate|].
  destruct (Tuple_MarshalAttribute C (TupleReply f) CTATupleReply)
    as [tr [e|]]; [discriminate|].
  unfold marshal_tail, emitted.
  destruct (Tuple_Filled C (TupleMaster f)).
  - destruct (Tuple_MarshalAttribute C (TupleMaster f) CTATupleMaster)
      as [tm [e|]]; [discriminate|].
    intros H. inversion H. exists to, tr, tm.
    repeat split.
    rewrite !append_optional. cbn [optional].
    now rewrite <- !app_assoc.
  - intros H. inversion H. exists to, tr, to.
    repeat split; [discriminate|].
    rewrite !append_optional. cbn [optional].
    now rewrite <- !app_assoc.
Qed.

(** An encode whose tuples encode, put together. *)
Lemma marshal_tuple_attributes (C : Collaborators) (f : Flow)
    (to tr tm : Attribute) :
  tuple_attributes C f to tr tm ->
  marshal C f = (emitted C f to tr tm, None).
Proof.
  intros (Fo & Fr & Eto & Etr & Etm). unfold marshal.
  rewrite Fo, Fr. cbn [negb orb]. rewrite Eto, Etr.
  unfold marshal_tail, emitted.
  destruct (Tuple_Filled C (TupleMaster f)).
  - rewrite (Etm eq_refl), !append_optional. cbn [optional].
    now rewrite <- !app_assoc.
  - rewrite !append_optional. cbn [optional].
    now rewrite <- !app_assoc.
Qed.

(** C5, amended.  For every Flow with both tuples filled whose original
    and reply tuple, and whose master tuple when it is filled, the tuple
    encoder encodes without error, encode succeeds and its attribute list
    is the encoded original tuple, the encoded reply tuple, then, in this
    order and each only when its predicate holds, Timeout, Status, Mark,
    Zone, ProtoInfo, Helper, the master tuple, SeqAdjOrig, SeqAdjReply and
    SynProxy.  The list is the same for every Flow that agrees on these
    twelve fields, whatever ID, Use, Labels, LabelsMask, the counters, the
    security context and the timestamp hold.  When no optional field is
    set the list is the two tuples and nothing else. *)
Theorem marshal_emits (C : Collaborators) (f : Flow)
    (to tr tm : Attribute) :
  tuple_attributes C f to tr tm ->
  marshal C f = (emitted C f to tr tm, None)
  /\ (forall g, same_emitted_fields f g ->
                marshal C g = (emitted C f to tr tm, None))
  /\ (nothing_optional C f -> marshal C f = ([to; tr], None)).
Proof.
  intros Ht.
  pose proof (marshal_tuple_attributes C f to tr tm Ht) as Hm.
  split; [exact Hm|]. split.
  - intros g Hg. now rewrite (marshal_same_emitted_fields C f g Hg).
  - rewrite Hm. unfold nothing_optional, emitted.
    intros (-> & -> & -> & -> & -> & -> & -> & -> & -> & ->).
    reflexivity.
Qed.

(** ** Decoding: the first failing attribute *)

Lemma case_of_case_code (k : Case) : case_of (case_code k) = Some k.
Proof. destruct k; reflexivity. Qed.

Lemma unmarshal_attr_code (C : Collaborators) (k : Case) (f : Flow)
    (a : Attribute) :
  attrType a = case_code k -> unmarshal_attr C f a = run_case C k f a.
Proof.
  intros H. now rewrite unmarshal_attr_case, H, case_of_case_code.
Qed.

Lemma unmarshal_attr_unknown (C : Collaborators) (f : Flow) (a : Attribute) :
  known (attrType a) = false ->
  unmarshal_attr C f a
  = (f, Some (errAttributeUnknown (AttributeType (attrType a)))).
Proof.
  intros H. apply case_of_known in H. now rewrite unmarshal_attr_case, H.
Qed.

Lemma unmarshal_attr_ok_known (C : Collaborators) (f : Flow) (a : Attribute) :
  snd (unmarshal_attr C f a) = None -> known (attrType a) = true.
Proof.
  destruct (known (attrType a)) eqn:E; [reflexivity|].
  rewrite (unmarshal_attr_unknown C f a E). discriminate.
Qed.

(** A decode that succeeds has met known type codes only. *)
Lemma unmarshal_ok_known (C : Collaborators) (l : list Attribute) :
  forall f,
    snd (unmarshal C f l) = None ->
    Forall (fun a => known (attrType a) = true) l.
Proof.
  induction l as [|a l IH]; intros f H; constructor.
  - simpl in H. apply (unmarshal_attr_ok_known C f).
    destruct (unmarshal_attr C f a) as [f' [e|]]; [discriminate|reflexivity].
  - simpl in H.
    destruct (unmarshal_attr C f a) as [f' [e|]]; [discriminate|].
    now apply (IH f').
Qed.

(** A decode that fails has run the attributes before the failing one, and
    returns the receiver as the failing iteration left it. *)
Lemma unmarshal_error_inv (C : Collaborators) (l : list Attribute) :
  forall f f' e,
    unmarshal C f l = (f', Some e) ->
    exists pre a post f_pre,
      l = pre ++ a :: post
      /\ unmarshal C f pre = (f_pre, None)
      /\ unmarshal_attr C f_pre a = (f', Some e).
Proof.
  induction l as [|a l IH]; intros f f' e H; simpl in H.
  - discriminate.
  - destruct (unmarshal_attr C f a) as [f1 [e1|]] eqn:E.
    + inversion H; subst. exists [], a, l, f. now repeat split.
    + destruct (IH f1 f' e H) as (pre & b & post & f_pre & -> & Hp & Hb).
      exists (a :: pre), b, post, f_pre. repeat split; [|assumption].
      simpl. now rewrite E.
Qed.

(** C2, amended.  When the attributes before an attribute of unknown type
    all decode without error (so that it is the first of unknown type),
    decode fails with the unknown-attribute error that carries its type
    code, wherever it stands in the sequence; the attributes after it play
    no part in the result, and the receiver is left as the attributes
    before it made it. *)
Theorem unmarshal_unknown_attribute (C : Collaborators) (f : Flow)
    (pre post : list Attribute) (a : Attribute) :
  snd (unmarshal C f pre) = None ->
  known (attrType a) = false ->
  Forall (fun b => known (attrType b) = true) pre
  /\ unmarshal C f (pre ++ a :: post)
     = (fst (unmarshal C f pre),
        Some (errAttributeUnknown (AttributeType (attrType a)))).
Proof.
  intros Hpre Ha. split.
  - now apply (unmarshal_ok_known C pre f).
  - rewrite unmarshal_app.
    destruct (unmarshal C f pre) as [f1 [e|]]; [discriminate|].
    simpl. now rewrite (unmarshal_attr_unknown C f1 a Ha).
Qed.

(** C3, amended.  When [unmarshalFlow] returns an error, either unwrapping
    the message failed and the Flow next to the error is the zero Flow, or
    an attribute failed and the Flow next to the error is the one the
    attributes before it built, as the failing iteration left it (unchanged
    by it when its type is unknown): it is not reset.  Batch decode is what
    drops it. *)
Theorem unmarshalFlow_error_keeps_prefix (C : Collaborators)
    (m : Message C) (f' : Flow) (e : error) :
  unmarshalFlow C m = (f', Some e) ->
  unmarshalFlows C [m] = ([], Some e)
  /\ ((snd (UnmarshalNetlink C m) = Some e /\ f' = zeroFlow)
      \/ exists pre a post f_pre,
           UnmarshalNetlink C m = (pre ++ a :: post, None)
           /\ unmarshal C zeroFlow pre = (f_pre, None)
           /\ unmarshal_attr C f_pre a = (f', Some e)
           /\ (known (attrType a) = false -> f' = f_pre)).
Proof.
  intros H. split.
  - unfold unmarshalFlows. simpl. now rewrite H.
  - unfold unmarshalFlow in H.
    destruct (UnmarshalNetlink C m) as [qattrs [e0|]].
    + inversion H; subst. now left.
    + right.
      destruct (unmarshal C zeroFlow qattrs) as [f1 [e1|]] eqn:E;
        [|discriminate].
      inversion H; subst.
      destruct (unmarshal_error_inv C qattrs zeroFlow f' e E)
        as (pre & a & post & f_pre & -> & Hp & Ha).
      exists pre, a, post, f_pre. repeat split; try assumption.
      intros Hk. rewrite (unmarshal_attr_unknown C f_pre a Hk) in Ha.
      now inversion Ha.
Qed.

(** ** Decoding: each case and its field *)

Lemma same_field_refl (k : Case) (f : Flow) : same_field k f f.
Proof. destruct k; reflexivity. Qed.

Lemma same_field_trans (k : Case) (f g h : Flow) :
  same_field k f g -> same_field k g h -> same_field k f h.
Proof. destruct k; simpl; congruence. Qed.

Ltac destruct_decoders :=
  repeat (simpl;
          match goal with
          | |- context [let (_, _) := ?x in _] =>
              lazymatch x with
              | context [let (_, _) := _ in _] => fail
              | _ => destruct x
              end
          end).

(** A case of the [switch] writes its own field and no other, whether its
    decoder fails or not. *)
Lemma run_case_frame (C : Collaborators) (k j : Case) (f : Flow)
    (a : Attribute) :
  j <> k -> same_field k (fst (run_case C j f a)) f.
Proof.
  intros Hk. destruct f.
  destruct k, j; try (exfalso; apply Hk; reflexivity);
    destruct_decoders; reflexivity.
Qed.

(** What a case does to its field, and whether it fails, depends on
    nothing of the Flow but that field. *)
Lemma run_case_same_field (C : Collaborators) (k : Case) (f g : Flow)
    (a : Attribute) :
  same_field k f g ->
  snd (run_case C k f a) = snd (run_case C k g a)
  /\ same_field k (fst (run_case C k f a)) (fst (run_case C k g a)).
Proof.
  destruct f, g.
  destruct k; simpl; intros H; try subst;
    destruct_decoders; split; reflexivity.
Qed.

Lemma unmarshal_attr_frame (C : Collaborators) (k : Case) (f : Flow)
    (a : Attribute) :
  attrType a <> case_code k ->
  same_field k (fst (unmarshal_attr C f a)) f.
Proof.
  intros Ha. rewrite unmarshal_attr_case.
  destruct (case_of (attrType a)) as [j|] eqn:E.
  - apply run_case_frame. intros ->. apply Ha. now apply case_of_code.
  - apply same_field_refl.
Qed.

Lemma unmarshal_frame_aux (C : Collaborators) (k : Case)
    (l : list Attribute) :
  forall f,
    Forall (fun b => attrType b <> case_code k) l ->
    same_field k (fst (unmarshal C f l)) f.
Proof.
  induction l as [|a l IH]; intros f Hl; simpl.
  - apply same_field_refl.
  - inversion Hl as [|? ? Ha Hrest]; subst.
    pose proof (unmarshal_attr_frame C k f a Ha) as Hs.
    destruct (unmarshal_attr C f a) as [f1 [e|]]; simpl in *.
    + exact Hs.
    + apply (same_field_trans k _ f1); [now apply IH|exact Hs].
Qed.

Lemma same_field_sym (k : Case) (f g : Flow) :
  same_field k f g -> same_field k g f.
Proof. destruct k; simpl; congruence. Qed.

(** ** Decoding: repeated scalar attributes *)

Section LastWins.

Variable C : Collaborators.

Lemma unmarshal_attr_scalar (f : Flow) (a : Attribute) :
  scalar (attrType a) = true -> snd (unmarshal_attr C f a) = None.
Proof.
  unfold scalar, scalar_types. cbn [existsb].
  rewrite !orb_true_iff, !Z.eqb_eq.
  unfold unmarshal_attr, AttributeType.
  intros [H|[H|[H|[H|[H|[H|[H|H]]]]]]];
    try discriminate; rewrite H; reflexivity.
Qed.

(** Attributes of scalar type never make the decode fail. *)
Lemma unmarshal_scalars_ok (l : list Attribute) :
  forall f,
    Forall (fun a => scalar (attrType a) = true) l ->
    snd (unmarshal C f l) = None.
Proof.
  induction l as [|a l IH]; intros f H; simpl.
  - reflexivity.
  - inversion H as [|? ? Ha Hl]; subst.
    pose proof (unmarshal_attr_scalar f a Ha) as Hs.
    destruct (unmarshal_attr C f a) as [f1 [e|]]; [discriminate|].
    now apply IH.
Qed.

(** A field that the attributes of one type code set, and that the
    successful decode of any other attribute leaves alone, holds what
    the last attribute of that code gave it. *)
Lemma last_occurrence {X : Type} (get : Flow -> X) (val : Attribute -> X)
    (code : Z) :
  (forall f a f', unmarshal_attr C f a = (f', None) ->
                  attrType a = code -> get f' = val a) ->
  (forall f a f', unmarshal_attr C f a = (f', None) ->
                  attrType a <> code -> get f' = get f) ->
  forall pre a post f,
    attrType a = code ->
    Forall (fun b => attrType b <> code) post ->
    snd (unmarshal C f (pre ++ a :: post)) = None ->
    get (fst (unmarshal C f (pre ++ a :: post))) = val a.
Proof.
  intros Hset Hkeep pre a post f Ha Hpost.
  rewrite unmarshal_app.
  destruct (unmarshal C f pre) as [f1 [e|]]; [discriminate|].
  simpl.
  destruct (unmarshal_attr C f1 a) as [f2 [e|]] eqn:E; [discriminate|].
  pose proof (Hset f1 a f2 E Ha) as H2. clear E f1.
  revert f2 H2.
  induction post as [|b post IH]; intros f2 H2; simpl.
  - intros _. exact H2.
  - inversion Hpost as [|? ? Hb Hrest]; subst.
    destruct (unmarshal_attr C f2 b) as [f3 [e|]] eqn:E; [discriminate|].
    apply (IH Hrest). rewrite (Hkeep f2 b f3 E Hb). exact H2.
Qed.

(** The successful decode of an attribute of another type code leaves a
    field alone. *)
Ltac other_case k H :=
  destruct k; cbn [run_case] in H;
  repeat match type of H with
         | context [let (_, _) := ?x in _] => destruct x
         end;
  inversion H; subst;
  match goal with
  | f : Flow |- _ => destruct f; (reflexivity || (exfalso; auto))
  end.

Ltac keeps :=
  let f := fresh "f" in
  let a := fresh "a" in
  let f' := fresh "f'" in
  let H := fresh "H" in
  let Hn := fresh "Hn" in
  let k := fresh "k" in
  let E := fresh "E" in
  intros f a f' H Hn;
  rewrite unmarshal_attr_case in H;
  destruct (case_of (attrType a)) as [k|] eqn:E; [|discriminate];
  apply case_of_code in E; rewrite E in Hn;
  other_case k H.

Ltac sets k :=
  let f := fresh "f" in
  let a := fresh "a" in
  let f' := fresh "f'" in
  let H := fresh "H" in
  let Ha := fresh "Ha" in
  intros f a f' H Ha;
  rewrite (unmarshal_attr_code C k f a Ha) in H;
  inversion H; subst; destruct f; reflexivity.

Lemma last_Timeout pre a post f :
  attrType a = CTATimeout ->
  Forall (fun b => attrType b <> CTATimeout) post ->
  snd (unmarshal C f (pre ++ a :: post)) = None ->
  Timeout (fst (unmarshal C f (pre ++ a :: post))) = Uint32 C a.
Proof. apply (last_occurrence Timeout (Uint32 C)); [sets KTimeout|keeps]. Qed.

Lemma last_ID pre a post f :
  attrType a = CTAID ->
  Forall (fun b => attrType b <> CTAID) post ->
  snd (unmarshal C f (pre ++ a :: post)) = None ->
  ID (fst (unmarshal C f (pre ++ a :: post))) = Uint32 C a.
Proof. apply (last_occurrence ID (Uint32 C)); [sets KID|keeps]. Qed.

Lemma last_Use pre a post f :
  attrType a = CTAUse ->
  Forall (fun b => attrType b <> CTAUse) post ->
  snd (unmarshal C f (pre ++ a :: post)) = None ->
  Use (fst (unmarshal C f (pre ++ a :: post))) = Uint32 C a.
Proof. apply (last_occurrence Use (Uint32 C)); [sets KUse|keeps]. Qed.

Lemma last_Mark pre a post f :
  attrType a = CTAMark ->
  Forall (fun b => attrType b <> CTAMark) post ->
  snd (unmarshal C f (pre ++ a :: post)) = None ->
  Mark (fst (unmarshal C f (pre ++ a :: post))) = Uint32 C a.
Proof. apply (last_occurrence Mark (Uint32 C)); [sets KMark|keeps]. Qed.

Lemma last_Zone pre a post f :
  attrType a = CTAZone ->
  Forall (fun b => attrType b <> CTAZone) post ->
  snd (unmarshal C f (pre ++ a :: post)) = None ->
  Zone (fst (unmarshal C f (pre ++ a :: post))) = Uint16 C a.
Proof. apply (last_occurrence Zone (Uint16 C)); [sets KZone|keeps]. Qed.

Lemma last_Labels pre a post f :
  attrType a = CTALabels ->
  Forall (fun b => attrType b <> CTALabels) post ->
  snd (unmarshal C f (pre ++ a :: post)) = None ->
  Labels (fst (unmarshal C f (pre ++ a :: post))) = Data a.
Proof. apply (last_occurrence Labels Data); [sets KLabels|keeps]. Qed.

Lemma last_LabelsMask pre a post f :
  attrType a = CTALabelsMask ->
  Forall (fun b => attrType b <> CTALabelsMask) post ->
  snd (unmarshal C f (pre ++ a :: post)) = None ->
  LabelsMask (fst (unmarshal C f (pre ++ a :: post))) = Data a.
Proof.
  apply (last_occurrence LabelsMask Data); [sets KLabelsMask|keeps].
Qed.

(** A field that the successful decode of an attribute of another type
    code leaves alone is left alone by a whole sequence without that
    code. *)
Lemma untouched {X : Type} (get : Flow -> X) (code : Z) :
  (forall f a f', unmarshal_attr C f a = (f', None) ->
                  attrType a <> code -> get f' = get f) ->
  forall l f f',
    Forall (fun b => attrType b <> code) l ->
    unmarshal C f l = (f', None) ->
    get f' = get f.
Proof.
  intros Hkeep l.
  induction l as [|b l IH]; intros f f' Hl H; simpl in H.
  - now inversion H.
  - inversion Hl as [|? ? Hb Hrest]; subst.
    destruct (unmarshal_attr C f b) as [f1 [e|]] eqn:E; [discriminate|].
    rewrite (IH f1 f' Hrest H). exact (Hkeep f b f1 E Hb).
Qed.

Lemma untouched_SeqAdjOrig l f f' :
  Forall (fun b => attrType b <> CTASeqAdjOrig) l ->
  unmarshal C f l = (f', None) ->
  SeqAdjOrig f' = SeqAdjOrig f.
Proof. apply (untouched SeqAdjOrig). keeps. Qed.

Lemma untouched_SeqAdjReply l f f' :
  Forall (fun b => attrType b <> CTASeqAdjReply) l ->
  unmarshal C f l = (f', None) ->
  SeqAdjReply f' = SeqAdjReply f.
Proof. apply (untouched SeqAdjReply). keeps. Qed.

End LastWins.

Section ScalarsNeverFail.

Variable C : Collaborators.

Lemma scalar_case_code (k : Case) (a : Attribute) :
  scalar (case_code k) = false ->
  scalar (attrType a) = true ->
  attrType a <> case_code k.
Proof. intros Hk Ha E. rewrite E in Ha. congruence. Qed.

(** A scalar attribute never fails and writes no composite field. *)
Lemma unmarshal_attr_scalar_frame (f : Flow) (a : Attribute) :
  scalar (attrType a) = true ->
  snd (unmarshal_attr C f a) = None
  /\ same_composites (fst (unmarshal_attr C f a)) f.
Proof.
  intros Ha. split; [now apply unmarshal_attr_scalar|].
  intros k Hk. apply unmarshal_attr_frame.
  now apply scalar_case_code.
Qed.

(** What an attribute that is not scalar does depends on the composite
    fields only. *)
Lemma unmarshal_attr_composite (f g : Flow) (a : Attribute) :
  scalar (attrType a) = false ->
  same_composites f g ->
  snd (unmarshal_attr C f a) = snd (unmarshal_attr C g a)
  /\ same_composites (fst (unmarshal_attr C f a))
       (fst (unmarshal_attr C g a)).
Proof.
  intros Ha Hfg. rewrite !unmarshal_attr_case.
  destruct (case_of (attrType a)) as [j|] eqn:E.
  - apply case_of_code in E.
    assert (Hj : scalar (case_code j) = false) by now rewrite <- E.
    destruct (run_case_same_field C j f g a (Hfg j Hj)) as [Hs Hf].
    split; [exact Hs|].
    intros k Hk.
    destruct (Case_eq_dec k j) as [->|Hne]; [exact Hf|].
    apply (same_field_trans k _ f);
      [apply run_case_frame; congruence|].
    apply (same_field_trans k _ g); [now apply Hfg|].
    apply same_field_sym. apply run_case_frame. congruence.
  - split; [reflexivity|exact Hfg].
Qed.

(** The error of a decode is the error of the sequence without its scalar
    attributes. *)
Lemma unmarshal_without_scalars (l : list Attribute) :
  forall f g,
    same_composites f g ->
    snd (unmarshal C f l) = snd (unmarshal C g (without_scalars l)).
Proof.
  induction l as [|a l IH]; intros f g Hfg; simpl.
  - reflexivity.
  - destruct (scalar (attrType a)) eqn:Ea; cbn [negb].
    + destruct (unmarshal_attr_scalar_frame f a Ea) as [Hn Hs].
      destruct (unmarshal_attr C f a) as [f1 e1]. simpl in Hn, Hs. subst e1.
      apply IH. intros k Hk.
      apply (same_field_trans k _ f); [now apply Hs|now apply Hfg].
    + cbn [unmarshal].
      destruct (unmarshal_attr_composite f g a Ea Hfg) as [He Hs].
      destruct (unmarshal_attr C f a) as [f1 e1];
        destruct (unmarshal_attr C g a) as [g1 e2].
      simpl in He, Hs. subst e2.
      destruct e1 as [e|]; [reflexivity|now apply IH].
Qed.

End ScalarsNeverFail.

(** C10.  Scalar attributes, repeated or not, are never an error: in every
    attribute sequence, whatever else it holds, decode returns the error
    that the sequence without its scalar attributes returns, and none when
    all attributes are scalar; and in every sequence that decodes, an
    attribute of a scalar type that no later attribute of the same type
    follows gives the field its value, whatever earlier attributes of that
    type held. *)
Theorem unmarshal_last_scalar_wins (C : Collaborators) (f : Flow)
    (pre post : list Attribute) (a : Attribute) :
  Forall (fun b => attrType b <> attrType a) post ->
  snd (unmarshal C f (pre ++ a :: post))
  = snd (unmarshal C f (without_scalars (pre ++ a :: post)))
  /\ (Forall (fun b => scalar (attrType b) = true) (pre ++ a :: post) ->
      snd (unmarshal C f (pre ++ a :: post)) = None)
  /\ (snd (unmarshal C f (pre ++ a :: post)) = None ->
      let f' := fst (unmarshal C f (pre ++ a :: post)) in
      (attrType a = CTATimeout -> Timeout f' = Uint32 C a)
      /\ (attrType a = CTAID -> ID f' = Uint32 C a)
      /\ (attrType a = CTAUse -> Use f' = Uint32 C a)
      /\ (attrType a = CTAMark -> Mark f' = Uint32 C a)
      /\ (attrType a = CTAZone -> Zone f' = Uint16 C a)
      /\ (attrType a = CTALabels -> Labels f' = Data a)
      /\ (attrType a = CTALabelsMask -> LabelsMask f' = Data a)).
Proof.
  intros Hpost. split; [|split].
  - apply unmarshal_without_scalars. intros k _. apply same_field_refl.
  - apply unmarshal_scalars_ok.
  - intros Hok f'. subst f'.
    repeat split; intros Ha; rewrite Ha in Hpost.
    + now apply last_Timeout.
    + now apply last_ID.
    + now apply last_Use.
    + now apply last_Mark.
    + now apply last_Zone.
    + now apply last_Labels.
    + now apply last_LabelsMask.
Qed.

(** ** Decoding: the order of the attributes *)

Section Order.

Variable C : Collaborators.

(** Two different cases of the [switch] write different fields: the
    error of the one does not depend on the other having run, and they
    commute. *)
Lemma run_case_comm (k1 k2 : Case) (f : Flow) (a b : Attribute) :
  k1 <> k2 ->
  snd (run_case C k2 (fst (run_case C k1 f a)) b)
  = snd (run_case C k2 f b)
  /\ fst (run_case C k2 (fst (run_case C k1 f a)) b)
     = fst (run_case C k1 (fst (run_case C k2 f b)) a).
Proof.
  intros Hk. destruct f.
  destruct k1, k2; try (exfalso; apply Hk; reflexivity);
    repeat (simpl;
            first
              [ match goal with
                | H : ?x = (_, _) |- context [?x] => rewrite H
                end
              | match goal with
                | |- context [let (_, _) := ?x in _] =>
                    lazymatch x with
                    | context [let (_, _) := _ in _] => fail
                    | _ => destruct x eqn:?
                    end
                end ]);
    split; reflexivity.
Qed.

(** Two neighbouring attributes of different type codes may be decoded
    in either order. *)
Lemma unmarshal_swap (f : Flow) (a b : Attribute) (l : list Attribute) :
  attrType a <> attrType b ->
  outcome (unmarshal C f (a :: b :: l))
  = outcome (unmarshal C f (b :: a :: l)).
Proof.
  intros Hne. cbn [unmarshal].
  rewrite (unmarshal_attr_case C f a), (unmarshal_attr_case C f b).
  destruct (case_of (attrType a)) as [k1|] eqn:Ea;
    destruct (case_of (attrType b)) as [k2|] eqn:Eb.
  - assert (Hk : k1 <> k2).
    { intros ->. apply Hne.
      now rewrite (case_of_code _ _ Ea), (case_of_code _ _ Eb). }
    destruct (run_case_comm k1 k2 f a b Hk) as [Hs1 Hf1].
    destruct (run_case_comm k2 k1 f b a (not_eq_sym Hk)) as [Hs2 _].
    destruct (run_case C k1 f a) as [fa ea];
      destruct (run_case C k2 f b) as [fb eb].
    cbn [fst snd] in Hs1, Hs2, Hf1.
    destruct ea as [e1|], eb as [e2|].
    + reflexivity.
    + rewrite (unmarshal_attr_case C fb a), Ea.
      destruct (run_case C k1 fb a) as [x y]. cbn [snd] in Hs2.
      now subst y.
    + rewrite (unmarshal_attr_case C fa b), Eb.
      destruct (run_case C k2 fa b) as [x y]. cbn [snd] in Hs1.
      now subst y.
    + rewrite (unmarshal_attr_case C fb a), Ea.
      rewrite (unmarshal_attr_case C fa b), Eb.
      destruct (run_case C k1 fb a) as [x1 y1];
        destruct (run_case C k2 fa b) as [x2 y2].
      cbn [fst snd] in Hs1, Hs2, Hf1. now subst.
  - destruct (run_case C k1 f a) as [fa [e1|]]; [reflexivity|].
    now rewrite (unmarshal_attr_case C fa b), Eb.
  - destruct (run_case C k2 f b) as [fb [e2|]]; [reflexivity|].
    now rewrite (unmarshal_attr_case C fb a), Ea.
  - reflexivity.
Qed.

End Order.

(** C7, amended.  For an attribute sequence in which no type code occurs
    twice, decoding does not depend on the order: every permutation of it
    decodes to the same Flow when the sequence decodes, and fails when the
    sequence fails. *)
Theorem unmarshal_order_independent (C : Collaborators)
    (l l' : list Attribute) :
  Permutation l l' ->
  NoDup (map attrType l) ->
  forall f, outcome (unmarshal C f l') = outcome (unmarshal C f l).
Proof.
  induction 1 as [|x l l' Hp IH|x y l|l l' l'' Hp1 IH1 Hp2 IH2];
    intros Hnd f.
  - reflexivity.
  - cbn [unmarshal].
    destruct (unmarshal_attr C f x) as [f1 [e|]]; [reflexivity|].
    apply IH. now inversion Hnd.
  - apply unmarshal_swap.
    inversion Hnd as [|? ? Hin _]; subst.
    intros Heq. apply Hin. left. exact Heq.
  - rewrite IH2, IH1; [reflexivity|assumption|].
    apply (Permutation_NoDup (l := map attrType l)); [|assumption].
    now apply Permutation_map.
Qed.

(** ** Round trip *)

Lemma neq_0_negb_eqb (z : Z) : z <> 0 -> negb (z =? 0) = true.
Proof. intros H. apply Z.eqb_neq in H. now rewrite H. Qed.

(** A successful iteration moves on to the rest of the sequence. *)
Lemma unmarshal_step_ok (C : Collaborators) (k : Case) (f f1 : Flow)
    (a : Attribute) (l : list Attribute) :
  attrType a = case_code k ->
  run_case C k f a = (f1, None) ->
  unmarshal C f (a :: l) = unmarshal C f1 l.
Proof.
  intros Ha Hr. cbn [unmarshal].
  now rewrite (unmarshal_attr_code C k f a Ha), Hr.
Qed.

Ltac flow_simpl :=
  cbn [set_ID set_Timeout set_Timestamp set_Status set_ProtoInfo set_Helper
       set_Zone set_CountersOrig set_CountersReply set_SecurityContext
       set_TupleOrig set_TupleReply set_TupleMaster set_SeqAdjOrig
       set_SeqAdjReply set_Labels set_LabelsMask set_Mark set_Use
       set_SynProxy
       ID Timeout Timestamp Status ProtoInfo Helper Zone CountersOrig
       CountersReply SecurityContext TupleOrig TupleReply TupleMaster
       SeqAdjOrig SeqAdjReply Labels LabelsMask Mark Use SynProxy].

(** One iteration on an attribute that carries the code of case [k] and
    that its decoder reads back. *)
Ltac decode_step C k T V :=
  erewrite (unmarshal_step_ok C k);
  [ | exact T | cbn [run_case]; flow_simpl; rewrite ?V; reflexivity ].

(** The dispatch of the round trip, whoever the collaborators are: when
    the optional fields of a Flow are all set and each emitted field
    encodes to an attribute that carries the type code of the field and
    that the decoder of the field reads back, decoding the encoded list
    gives the twelve emitted fields back. *)
Lemma roundtrip_of_sub_codecs (C : Collaborators) (f : Flow)
    (attrs : list Attribute) :
  populated C f ->
  sub_codecs_invert C f ->
  marshal C f = (attrs, None) ->
  exists f',
    unmarshal C zeroFlow attrs = (f', None) /\ same_emitted_fields f f'.
Proof.
  intros (Ht & Hs & Hm & Hz & Hpi & Hh & Htm & Hso & Hsr & Hsp) Hinv Hmar.
  destruct (marshal_inv C f attrs Hmar)
    as (to & tr & tm & (_ & _ & Eto & Etr & Etm) & ->).
  specialize (Etm Htm).
  destruct Hinv as (Ito & Itr & Itm & [Tt Vt] & [Ts Vs] & [Tm Vm] & [Tz Vz]
                    & [Tpi Vpi] & [Th Vh] & [Tso Vso] & [Tsr Vsr]
                    & [Tsp Vsp]).
  destruct (Ito to Eto) as [Tto Vto].
  destruct (Itr tr Etr) as [Ttr Vtr].
  destruct (Itm tm Etm) as [Ttm Vtm].
  unfold emitted.
  rewrite (neq_0_negb_eqb _ Ht), (neq_0_negb_eqb _ Hs),
    (neq_0_negb_eqb _ Hm), (neq_0_negb_eqb _ Hz), Hpi, Hh, Htm, Hso, Hsr, Hsp.
  cbn [optional app].
  unfold zeroFlow.
  decode_step C KTupleOrig Tto Vto.
  decode_step C KTupleReply Ttr Vtr.
  decode_step C KTimeout Tt Vt.
  decode_step C KStatus Ts Vs.
  decode_step C KMark Tm Vm.
  decode_step C KZone Tz Vz.
  decode_step C KProtoInfo Tpi Vpi.
  decode_step C KHelp Th Vh.
  decode_step C KTupleMaster Ttm Vtm.
  decode_step C KSeqAdjOrig Tso Vso.
  decode_step C KSeqAdjReply Tsr Vsr.
  decode_step C KSynProxy Tsp Vsp.
  eexists. split; [reflexivity|].
  unfold same_emitted_fields. flow_simpl.
  repeat split.
Qed.

(** ** Encoding needs both tuples *)

(** Without both tuples filled nothing is emitted, whoever the
    collaborators are. *)
Lemma marshal_unfilled (C : Collaborators) (f : Flow) :
  ~ (Tuple_Filled C (TupleOrig f) = true
     /\ Tuple_Filled C (TupleReply f) = true) ->
  marshal C f = ([], Some errNeedTuples).
Proof.
  intros H. unfold marshal.
  destruct (Tuple_Filled C (TupleOrig f)); [|reflexivity].
  destruct (Tuple_Filled C (TupleReply f)); [|reflexivity].
  exfalso. apply H. now split.
Qed.

Lemma model_tuple_marshal_error (t : Tuple) (code : Z) (e : error) :
  snd (SpecModel.Tuple_MarshalAttribute t code) = Some e ->
  e = errAddressFamily.
Proof.
  unfold SpecModel.Tuple_MarshalAttribute.
  destruct (_ && _); [discriminate|].
  destruct (_ && _); [discriminate|].
  simpl. congruence.
Qed.

Lemma model_tuple_marshal_ok (t : Tuple) (code : Z) :
  address_family_ok t ->
  snd (SpecModel.Tuple_MarshalAttribute t code) = None.
Proof.
  unfold address_family_ok, SpecModel.Tuple_MarshalAttribute,
    SpecModel.has_length.
  intros [[-> ->]|[-> ->]]; reflexivity.
Qed.

(** C4, amended.  With the tuple codec of section 4.2, encode fails with
    the tuples-required error and emits nothing exactly when the original
    and the reply tuple are not both filled; the zero-value Flow fails so;
    and the zero-value Flow with both tuples set to filled values whose
    addresses are 4 or 16 bytes long encodes without error. *)
Theorem marshal_needs_tuples (f : Flow) (to tr : Tuple) :
  (marshal SpecModel.model f = ([], Some errNeedTuples)
   <-> ~ (Tuple_Filled SpecModel.model (TupleOrig f) = true
          /\ Tuple_Filled SpecModel.model (TupleReply f) = true))
  /\ marshal SpecModel.model zeroFlow = ([], Some errNeedTuples)
  /\ (Tuple_Filled SpecModel.model to = true ->
      Tuple_Filled SpecModel.model tr = true ->
      address_family_ok to ->
      address_family_ok tr ->
      snd (marshal SpecModel.model
             (set_TupleReply tr (set_TupleOrig to zeroFlow))) = None).
Proof.
  split; [split|split].
  - intros H [Ho Hr]. unfold marshal in H. rewrite Ho, Hr in H.
    cbn [negb orb Tuple_MarshalAttribute SpecModel.model] in H.
    destruct (SpecModel.Tuple_MarshalAttribute (TupleOrig f) CTATupleOrig)
      as [a [e|]] eqn:Ea.
    + pose proof (model_tuple_marshal_error _ _ e (f_equal snd Ea)).
      congruence.
    + destruct (SpecModel.Tuple_MarshalAttribute (TupleReply f)
                  CTATupleReply) as [b [e|]] eqn:Eb.
      * pose proof (model_tuple_marshal_error _ _ e (f_equal snd Eb)).
        congruence.
      * destruct (Tuple_Filled _ (TupleMaster f)); [|discriminate].
        destruct (SpecModel.Tuple_MarshalAttribute (TupleMaster f)
                    CTATupleMaster) as [c [e|]] eqn:Ec; [|discriminate].
        pose proof (model_tuple_marshal_error _ _ e (f_equal snd Ec)).
        congruence.
  - apply marshal_unfilled.
  - reflexivity.
  - intros Ho Hr Ao Ar. unfold marshal, zeroFlow. flow_simpl.
    rewrite Ho, Hr.
    cbn [negb orb Tuple_MarshalAttribute SpecModel.model].
    pose proof (model_tuple_marshal_ok to CTATupleOrig Ao) as Eo.
    pose proof (model_tuple_marshal_ok tr CTATupleReply Ar) as Er.
    destruct (SpecModel.Tuple_MarshalAttribute to CTATupleOrig) as [a ea].
    destruct (SpecModel.Tuple_MarshalAttribute tr CTATupleReply) as [b eb].
    cbn [snd] in Eo, Er. subst ea eb. reflexivity.
Qed.

(** Why the round trip of claim C1 needs more than filled fields, whoever
    the collaborators are.  [Flow.marshal] encodes both sequence
    adjustments with [MarshalAttribute()], which is given no type code: two
    equal adjustments become two copies of one attribute.  When the copies
    of one attribute [a] are all that may carry a sequence-adjustment
    code, a decode from the zero Flow leaves one of the two adjustments at
    its zero value. *)
Lemma one_attribute_one_field (C : Collaborators) (a : Attribute)
    (attrs : list Attribute) (f' : Flow) :
  (forall b, In b attrs ->
             b = a \/ (attrType b <> CTASeqAdjOrig
                       /\ attrType b <> CTASeqAdjReply)) ->
  unmarshal C zeroFlow attrs = (f', None) ->
  SeqAdjOrig f' = zeroSequenceAdjust \/ SeqAdjReply f' = zeroSequenceAdjust.
Proof.
  intros Hall Hdec.
  destruct (Z.eq_dec (attrType a) CTASeqAdjReply) as [E|E].
  - left.
    rewrite (untouched_SeqAdjOrig C attrs zeroFlow f'); [reflexivity| |exact Hdec].
    apply Forall_forall. intros b Hb.
    destruct (Hall b Hb) as [->|[H _]]; [rewrite E; discriminate|exact H].
  - right.
    rewrite (untouched_SeqAdjReply C attrs zeroFlow f'); [reflexivity| |exact Hdec].
    apply Forall_forall. intros b Hb.
    destruct (Hall b Hb) as [->|[_ H]]; [exact E|exact H].
Qed.

(** * The properties on concrete inputs *)

(** ** Round trip *)

(** C1 as stated fails.  A sequence adjustment is encoded from its value
    alone, so two equal ones encode to the same attribute, of one type code, and decode into
    one field: the reply adjustment of [twin_seqadj_flow] is lost, though
    every optional field is set and the encode succeeds. *)
Lemma roundtrip_loses_twin_seqadj :
  populated SpecModel.model twin_seqadj_flow
  /\ snd (marshal SpecModel.model twin_seqadj_flow) = None
  /\ (forall f',
        unmarshal SpecModel.model zeroFlow
          (fst (marshal SpecModel.model twin_seqadj_flow))
        = (f', None) ->
        SeqAdjReply f' = zeroSequenceAdjust
        /\ ~ same_emitted_fields twin_seqadj_flow f').
Proof.
  split; [|split].
  - unfold populated. vm_compute. repeat split; discriminate.
  - vm_compute. reflexivity.
  - intros f' H. vm_compute in H. inversion H; subst. split.
    + reflexivity.
    + unfold same_emitted_fields. vm_compute.
      intros (_ & _ & _ & _ & _ & _ & _ & _ & _ & _ & Hr & _).
      discriminate Hr.
Qed.

Lemma full_flow_populated : populated SpecModel.model full_flow.
Proof. unfold populated. vm_compute. repeat split; discriminate. Qed.

(** ** The first failing attribute *)

(** C2 as stated fails.  A tuple attribute that is not a nested group
    fails its decoder before the attribute of unknown type is reached: the error is the tuple's. *)
Lemma unknown_after_malformed_tuple :
  known (attrType malformed_tuple_attr) = true
  /\ known (attrType unknown_attr) = false
  /\ unmarshal SpecModel.model zeroFlow [malformed_tuple_attr; unknown_attr]
     = (zeroFlow, Some (errMalformed "tuple"))
  /\ snd (unmarshal SpecModel.model zeroFlow
            [malformed_tuple_attr; unknown_attr])
     <> Some (errAttributeUnknown 99).
Proof.
  repeat split; try (vm_compute; reflexivity).
  vm_compute. discriminate.
Qed.

Lemma unmarshal_unknown_attribute_witness :
  snd (unmarshal SpecModel.model zeroFlow [timeout_attr 120]) = None
  /\ known (attrType unknown_attr) = false
  /\ Forall (fun b => known (attrType b) = true) [timeout_attr 120]
  /\ unmarshal SpecModel.model zeroFlow
       ([timeout_attr 120] ++ unknown_attr :: [mark_attr 7])
     = (fst (unmarshal SpecModel.model zeroFlow [timeout_attr 120]),
        Some (errAttributeUnknown (AttributeType (attrType unknown_attr)))).
Proof.
  split; [vm_compute; reflexivity|].
  split; [vm_compute; reflexivity|].
  apply (unmarshal_unknown_attribute SpecModel.model zeroFlow
           [timeout_attr 120] [mark_attr 7] unknown_attr);
    vm_compute; reflexivity.
Defined.

(** C3 as stated fails.  The timeout decoded before the attribute of
    unknown type is in the Flow that [unmarshalFlow] returns with the error. *)
Lemma unmarshalFlow_returns_partial_flow :
  unmarshalFlow SpecModel.model bad_message
  = (set_Timeout 120 zeroFlow, Some (errAttributeUnknown 99))
  /\ Timeout (fst (unmarshalFlow SpecModel.model bad_message)) = 120
  /\ fst (unmarshalFlow SpecModel.model bad_message) <> zeroFlow.
Proof.
  repeat split; try (vm_compute; reflexivity).
  vm_compute. discriminate.
Qed.

Lemma unmarshalFlow_error_keeps_prefix_witness :
  unmarshalFlow SpecModel.model bad_message
  = (set_Timeout 120 zeroFlow, Some (errAttributeUnknown 99))
  /\ unmarshalFlows SpecModel.model [bad_message]
     = ([], Some (errAttributeUnknown 99)).
Proof.
  split; [vm_compute; reflexivity|].
  apply (unmarshalFlow_error_keeps_prefix SpecModel.model bad_message
           (set_Timeout 120 zeroFlow) (errAttributeUnknown 99)).
  vm_compute. reflexivity.
Defined.

(** ** Encoding *)

(** C4 as stated fails.  Both tuples are filled, and the encode fails all
    the same, with the address-family error: five bytes are no address. *)
Lemma marshal_filled_tuples_fails :
  Tuple_Filled SpecModel.model odd_tuple = true
  /\ marshal SpecModel.model
       (set_TupleReply odd_tuple (set_TupleOrig odd_tuple zeroFlow))
     = ([], Some errAddressFamily).
Proof. split; vm_compute; reflexivity. Qed.

Lemma marshal_needs_tuples_witness :
  Tuple_Filled SpecModel.model (TupleOrig plain_flow) = true
  /\ Tuple_Filled SpecModel.model (TupleReply plain_flow) = true
  /\ address_family_ok (TupleOrig plain_flow)
  /\ address_family_ok (TupleReply plain_flow)
  /\ snd (marshal SpecModel.model
            (set_TupleReply (TupleReply plain_flow)
               (set_TupleOrig (TupleOrig plain_flow) zeroFlow))) = None.
Proof.
  assert (Ho : Tuple_Filled SpecModel.model (TupleOrig plain_flow) = true)
    by (vm_compute; reflexivity).
  assert (Hr : Tuple_Filled SpecModel.model (TupleReply plain_flow) = true)
    by (vm_compute; reflexivity).
  assert (Ao : address_family_ok (TupleOrig plain_flow))
    by (left; split; reflexivity).
  assert (Ar : address_family_ok (TupleReply plain_flow))
    by (left; split; reflexivity).
  split; [exact Ho|]. split; [exact Hr|].
  split; [exact Ao|]. split; [exact Ar|].
  exact (proj2 (proj2 (marshal_needs_tuples zeroFlow (TupleOrig plain_flow)
                         (TupleReply plain_flow))) Ho Hr Ao Ar).
Defined.

(** C5 as stated fails.  Both tuples are filled and encode, and still no
    list is produced: the filled master tuple does not encode. *)
Lemma marshal_filled_emits_nothing :
  Tuple_Filled SpecModel.model (TupleOrig master_odd_flow) = true
  /\ Tuple_Filled SpecModel.model (TupleReply master_odd_flow) = true
  /\ marshal SpecModel.model master_odd_flow = ([], Some errAddressFamily)
  /\ forall to tr tm,
       fst (marshal SpecModel.model master_odd_flow)
       <> emitted SpecModel.model master_odd_flow to tr tm.
Proof.
  split; [vm_compute; reflexivity|].
  split; [vm_compute; reflexivity|].
  split; [vm_compute; reflexivity|].
  intros to tr tm H. vm_compute in H. discriminate H.
Qed.

Lemma marshal_emits_witness :
  tuple_attributes SpecModel.model full_flow
    (fst (Tuple_MarshalAttribute SpecModel.model (TupleOrig full_flow)
            CTATupleOrig))
    (fst (Tuple_MarshalAttribute SpecModel.model (TupleReply full_flow)
            CTATupleReply))
    (fst (Tuple_MarshalAttribute SpecModel.model (TupleMaster full_flow)
            CTATupleMaster))
  /\ List.length (fst (marshal SpecModel.model full_flow)) = 12%nat.
Proof.
  assert (Ht : tuple_attributes SpecModel.model full_flow
                 (fst (Tuple_MarshalAttribute SpecModel.model
                         (TupleOrig full_flow) CTATupleOrig))
                 (fst (Tuple_MarshalAttribute SpecModel.model
                         (TupleReply full_flow) CTATupleReply))
                 (fst (Tuple_MarshalAttribute SpecModel.model
                         (TupleMaster full_flow) CTATupleMaster))).
  { unfold tuple_attributes.
    split; [vm_compute; reflexivity|]. split; [vm_compute; reflexivity|].
    split; [vm_compute; reflexivity|]. split; [vm_compute; reflexivity|].
    intros _. vm_compute. reflexivity. }
  split; [exact Ht|].
  rewrite (proj1 (marshal_emits SpecModel.model full_flow _ _ _ Ht)).
  vm_compute. reflexivity.
Defined.

(** ** The order of the attributes *)

(** C7 as stated fails.  Two timeouts: the later one stays, so the order
    decides. *)
Lemma unmarshal_depends_on_order :
  Permutation [timeout_attr 1; timeout_attr 2] [timeout_attr 2; timeout_attr 1]
  /\ unmarshal SpecModel.model zeroFlow [timeout_attr 1; timeout_attr 2]
     = (set_Timeout 2 zeroFlow, None)
  /\ unmarshal SpecModel.model zeroFlow [timeout_attr 2; timeout_attr 1]
     = (set_Timeout 1 zeroFlow, None)
  /\ unmarshal SpecModel.model zeroFlow [timeout_attr 2; timeout_attr 1]
     <> unmarshal SpecModel.model zeroFlow [timeout_attr 1; timeout_attr 2].
Proof.
  split; [apply perm_swap|].
  repeat split; try (vm_compute; reflexivity).
  vm_compute. discriminate.
Qed.

Lemma unmarshal_order_independent_witness :
  Permutation [timeout_attr 5; mark_attr 7] [mark_attr 7; timeout_attr 5]
  /\ NoDup (map attrType [timeout_attr 5; mark_attr 7])
  /\ outcome (unmarshal SpecModel.model zeroFlow
                [mark_attr 7; timeout_attr 5])
     = outcome (unmarshal SpecModel.model zeroFlow
                  [timeout_attr 5; mark_attr 7]).
Proof.
  assert (Hp : Permutation [timeout_attr 5; mark_attr 7]
                 [mark_attr 7; timeout_attr 5]) by apply perm_swap.
  assert (Hn : NoDup (map attrType [timeout_attr 5; mark_attr 7])).
  { vm_compute. repeat constructor; simpl; intuition discriminate. }
  split; [exact Hp|]. split; [exact Hn|].
  exact (unmarshal_order_independent SpecModel.model _ _ Hp Hn zeroFlow).
Defined.

(** ** Repeated scalar attributes *)

Lemma unmarshal_last_scalar_wins_witness :
  Forall (fun b => attrType b <> attrType (timeout_attr 2)) [mark_attr 3]
  /\ snd (unmarshal SpecModel.model zeroFlow
            ([timeout_attr 1; status_attr 12] ++ timeout_attr 2
             :: [mark_attr 3])) = None
  /\ Timeout (fst (unmarshal SpecModel.model zeroFlow
                     ([timeout_attr 1; status_attr 12] ++ timeout_attr 2
                      :: [mark_attr 3]))) = 2.
Proof.
  assert (Hpost : Forall (fun b => attrType b <> attrType (timeout_attr 2))
                    [mark_attr 3]).
  { repeat constructor. vm_compute. discriminate. }
  split; [exact Hpost|].
  destruct (unmarshal_last_scalar_wins SpecModel.model zeroFlow
              [timeout_attr 1; status_attr 12] [mark_attr 3]
              (timeout_attr 2) Hpost)
    as (Herr & _ & Hlast).
  assert (Hs : snd (unmarshal SpecModel.model zeroFlow
                      ([timeout_attr 1; status_attr 12] ++ timeout_attr 2
                       :: [mark_attr 3])) = None).
  { rewrite Herr. vm_compute. reflexivity. }
  split; [exact Hs|].
  destruct (Hlast Hs) as [Ht _].
  rewrite (Ht eq_refl). vm_compute. reflexivity.
Defined.

(** ** Batch conversion *)

Lemma unmarshalFlows_preserves_order_witness :
  (forall m, In m [good_message 30; good_message 60] ->
             snd (unmarshalFlow SpecModel.model m) = None)
  /\ unmarshalFlows SpecModel.model [good_message 30; good_message 60]
     = ([set_Timeout 30 zeroFlow; set_Timeout 60 zeroFlow], None)
  /\ List.length
       (fst (unmarshalFlows SpecModel.model
               [good_message 30; good_message 60])) = 2%nat.
Proof.
  assert (Hok : forall m, In m [good_message 30; good_message 60] ->
                          snd (unmarshalFlow SpecModel.model m) = None).
  { intros m [<-|[<-|[]]]; vm_compute; reflexivity. }
  split; [exact Hok|].
  split; [vm_compute; reflexivity|].
  destruct (unmarshalFlows_preserves_order SpecModel.model
              [good_message 30; good_message 60] Hok) as (_ & Hlen & _).
  exact Hlen.
Defined.

Lemma unmarshalFlows_all_or_nothing_witness :
  (forall x, In x [good_message 30] ->
             snd (unmarshalFlow SpecModel.model x) = None)
  /\ snd (unmarshalFlow SpecModel.model bad_message)
     = Some (errAttributeUnknown 99)
  /\ unmarshalFlows SpecModel.model
       ([good_message 30] ++ bad_message :: [good_message 60])
     = ([], Some (errAttributeUnknown 99)).
Proof.
  assert (Hok : forall x, In x [good_message 30] ->
                          snd (unmarshalFlow SpecModel.model x) = None).
  { intros x [<-|[]]; vm_compute; reflexivity. }
  assert (Hbad : snd (unmarshalFlow SpecModel.model bad_message)
                 = Some (errAttributeUnknown 99))
    by (vm_compute; reflexivity).
  split; [exact Hok|]. split; [exact Hbad|].
  exact (unmarshalFlows_all_or_nothing SpecModel.model [good_message 30]
           [good_message 60] bad_message (errAttributeUnknown 99) Hok Hbad).
Defined.

(** * Further properties of [flow.go] *)

(** ** Decoding field by field *)

(** X6.  Decoding leaves alone every field whose type code does not occur
    in the attribute sequence, whether the decode succeeds or fails on the
    way. *)
Theorem unmarshal_frame (C : Collaborators) (k : Case) (f : Flow)
    (l : list Attribute) :
  Forall (fun b => attrType b <> case_code k) l ->
  same_field k (fst (unmarshal C f l)) f.
Proof. intros Hl. now apply unmarshal_frame_aux. Qed.

Lemma unmarshal_frame_witness :
  Forall (fun b => attrType b <> case_code KMark)
    [timeout_attr 120; unknown_attr]
  /\ Mark (fst (unmarshal SpecModel.model (set_Mark 7 zeroFlow)
                  [timeout_attr 120; unknown_attr])) = 7.
Proof.
  assert (H : Forall (fun b => attrType b <> case_code KMark)
                [timeout_attr 120; unknown_attr]).
  { repeat constructor; vm_compute; discriminate. }
  split; [exact H|].
  exact (unmarshal_frame SpecModel.model KMark (set_Mark 7 zeroFlow)
           [timeout_attr 120; unknown_attr] H).
Defined.

Lemma unmarshal_fieldwise_aux (C : Collaborators) (k : Case)
    (l : list Attribute) :
  forall f g,
    same_field k f g ->
    snd (unmarshal C f l) = None ->
    snd (unmarshal C g (filter (of_code (case_code k)) l)) = None
    /\ same_field k (fst (unmarshal C f l))
         (fst (unmarshal C g (filter (of_code (case_code k)) l))).
Proof.
  induction l as [|a l IH]; intros f g Hfg Hok; simpl.
  - split; [reflexivity|exact Hfg].
  - simpl in Hok.
    destruct (of_code (case_code k) a) eqn:Eo; unfold of_code in Eo;
      [apply Z.eqb_eq in Eo|apply Z.eqb_neq in Eo]; rename Eo into Ea.
    + cbn [unmarshal].
      rewrite (unmarshal_attr_code C k f a Ea) in *.
      rewrite (unmarshal_attr_code C k g a Ea).
      destruct (run_case_same_field C k f g a Hfg) as [Hs Hf].
      destruct (run_case C k f a) as [f1 [e|]]; [discriminate|].
      destruct (run_case C k g a) as [g1 eg]. simpl in Hs, Hf. subst eg.
      now apply IH.
    + pose proof (unmarshal_attr_frame C k f a Ea) as Hs.
      destruct (unmarshal_attr C f a) as [f1 [e|]]; [discriminate|].
      simpl in Hs. apply IH; [|exact Hok].
      now apply (same_field_trans k f1 f g).
Qed.

(** X7.  The fields decode independently of each other: when a sequence
    decodes, each field ends as if the attributes of its own type code had
    been decoded alone, in their order, and these decode without error. *)
Theorem unmarshal_fieldwise (C : Collaborators) (k : Case) (f : Flow)
    (l : list Attribute) :
  snd (unmarshal C f l) = None ->
  snd (unmarshal C f (filter (of_code (case_code k)) l)) = None
  /\ same_field k (fst (unmarshal C f l))
       (fst (unmarshal C f (filter (of_code (case_code k)) l))).
Proof.
  intros Hok.
  now apply (unmarshal_fieldwise_aux C k l f f (same_field_refl k f)).
Qed.

Lemma unmarshal_fieldwise_witness :
  snd (unmarshal SpecModel.model zeroFlow mixed_attrs) = None
  /\ filter (of_code (case_code KTimeout)) mixed_attrs
     = [timeout_attr 1; timeout_attr 2]
  /\ Timeout (fst (unmarshal SpecModel.model zeroFlow mixed_attrs))
     = Timeout (fst (unmarshal SpecModel.model zeroFlow
                       (filter (of_code (case_code KTimeout)) mixed_attrs))).
Proof.
  assert (H : snd (unmarshal SpecModel.model zeroFlow mixed_attrs) = None)
    by (vm_compute; reflexivity).
  split; [exact H|]. split; [vm_compute; reflexivity|].
  exact (proj2 (unmarshal_fieldwise SpecModel.model KTimeout zeroFlow
                  mixed_attrs H)).
Defined.

(** X5.  Decoding a concatenation is decoding the first part and then the
    second part into the same receiver; when the first part fails, the
    second is not looked at. *)
Theorem unmarshal_concat (C : Collaborators) (f : Flow)
    (l1 l2 : list Attribute) :
  unmarshal C f (l1 ++ l2) =
  match snd (unmarshal C f l1) with
  | None => unmarshal C (fst (unmarshal C f l1)) l2
  | Some _ => unmarshal C f l1
  end.
Proof.
  rewrite unmarshal_app.
  destruct (unmarshal C f l1) as [f1 [e|]]; reflexivity.
Qed.

(** X10.  Whenever decode fails, it fails at an attribute before which
    all attributes decoded: the iteration on that attribute returns the
    error and leaves the receiver as decode returns it.  That attribute is
    never of a scalar type; when it is of unknown type, the error is the
    unknown-attribute error with its code and the receiver is as the
    attributes before it left it. *)
Theorem unmarshal_error_cause (C : Collaborators) (f f' : Flow)
    (l : list Attribute) (e : error) :
  unmarshal C f l = (f', Some e) ->
  exists pre a post,
    l = pre ++ a :: post
    /\ snd (unmarshal C f pre) = None
    /\ unmarshal_attr C (fst (unmarshal C f pre)) a = (f', Some e)
    /\ scalar (attrType a) = false
    /\ (known (attrType a) = false ->
        e = errAttributeUnknown (AttributeType (attrType a))
        /\ f' = fst (unmarshal C f pre)).
Proof.
  intros H.
  destruct (unmarshal_error_inv C l f f' e H)
    as (pre & a & post & f_pre & -> & Hp & Ha).
  exists pre, a, post. rewrite Hp. simpl.
  split; [reflexivity|]. split; [reflexivity|]. split; [exact Ha|]. split.
  - destruct (scalar (attrType a)) eqn:Es; [|reflexivity].
    pose proof (unmarshal_attr_scalar C f_pre a Es) as Hn.
    rewrite Ha in Hn. discriminate.
  - intros Hk. rewrite (unmarshal_attr_unknown C f_pre a Hk) in Ha.
    inversion Ha; subst. now split.
Qed.

Lemma unmarshal_error_cause_witness :
  unmarshal SpecModel.model zeroFlow [timeout_attr 120; malformed_tuple_attr]
  = (set_Timeout 120 zeroFlow, Some (errMalformed "tuple"))
  /\ exists pre a post,
       [timeout_attr 120; malformed_tuple_attr] = pre ++ a :: post
       /\ snd (unmarshal SpecModel.model zeroFlow pre) = None
       /\ unmarshal_attr SpecModel.model
            (fst (unmarshal SpecModel.model zeroFlow pre)) a
          = (set_Timeout 120 zeroFlow, Some (errMalformed "tuple"))
       /\ scalar (attrType a) = false
       /\ (known (attrType a) = false ->
           errMalformed "tuple"
           = errAttributeUnknown (AttributeType (attrType a))
           /\ set_Timeout 120 zeroFlow
              = fst (unmarshal SpecModel.model zeroFlow pre)).
Proof.
  assert (H : unmarshal SpecModel.model zeroFlow
                [timeout_attr 120; malformed_tuple_attr]
              = (set_Timeout 120 zeroFlow, Some (errMalformed "tuple")))
    by (vm_compute; reflexivity).
  split; [exact H|].
  exact (unmarshal_error_cause SpecModel.model zeroFlow _ _ _ H).
Defined.

(** X11.  A decoded message starts from the zero Flow: every field for
    which the message carries no attribute holds its zero value in the
    Flow that [unmarshalFlow] returns, with or without an error. *)
Theorem unmarshalFlow_absent_field_zero (C : Collaborators) (k : Case)
    (m : Message C) :
  Forall (fun b => attrType b <> case_code k)
    (fst (UnmarshalNetlink C m)) ->
  same_field k (fst (unmarshalFlow C m)) zeroFlow.
Proof.
  intros Hl. unfold unmarshalFlow.
  destruct (UnmarshalNetlink C m) as [qattrs [e0|]]; simpl in *.
  - apply same_field_refl.
  - pose proof (unmarshal_frame_aux C k qattrs zeroFlow Hl) as Hs.
    destruct (unmarshal C zeroFlow qattrs) as [f1 [e|]]; exact Hs.
Qed.

Lemma unmarshalFlow_absent_field_zero_witness :
  Forall (fun b => attrType b <> case_code KTupleOrig)
    (fst (UnmarshalNetlink SpecModel.model bad_message))
  /\ TupleOrig (fst (unmarshalFlow SpecModel.model bad_message)) = zeroTuple.
Proof.
  assert (H : Forall (fun b => attrType b <> case_code KTupleOrig)
                (fst (UnmarshalNetlink SpecModel.model bad_message))).
  { repeat constructor; vm_compute; discriminate. }
  split; [exact H|].
  exact (unmarshalFlow_absent_field_zero SpecModel.model KTupleOrig
           bad_message H).
Defined.

(** ** Encoding: errors, size, type codes *)

(** X1.  When encode fails it hands over no attribute, and the error is
    the tuples-required error (the two tuples are not both filled) or the
    error of the tuple encoder on the original tuple, on the reply tuple,
    or on a filled master tuple, the earlier ones having succeeded: no
    other field can make encode fail. *)
Theorem marshal_error_emits_nothing (C : Collaborators) (f : Flow)
    (attrs : list Attribute) (e : error) :
  marshal C f = (attrs, Some e) ->
  attrs = []
  /\ ((e = errNeedTuples
       /\ ~ (Tuple_Filled C (TupleOrig f) = true
             /\ Tuple_Filled C (TupleReply f) = true))
      \/ (Tuple_Filled C (TupleOrig f) = true
          /\ Tuple_Filled C (TupleReply f) = true
          /\ (snd (Tuple_MarshalAttribute C (TupleOrig f) CTATupleOrig)
                = Some e
              \/ (snd (Tuple_MarshalAttribute C (TupleOrig f) CTATupleOrig)
                    = None
                  /\ snd (Tuple_MarshalAttribute C (TupleReply f)
                            CTATupleReply) = Some e)
              \/ (snd (Tuple_MarshalAttribute C (TupleOrig f) CTATupleOrig)
                    = None
                  /\ snd (Tuple_MarshalAttribute C (TupleReply f)
                            CTATupleReply) = None
                  /\ Tuple_Filled C (TupleMaster f) = true
                  /\ snd (Tuple_MarshalAttribute C (TupleMaster f)
                            CTATupleMaster) = Some e)))).
Proof.
  unfold marshal.
  destruct (Tuple_Filled C (TupleOrig f)) eqn:Fo;
    [destruct (Tuple_Filled C (TupleReply f)) eqn:Fr|]; cbn [negb orb].
  - destruct (Tuple_MarshalAttribute C (TupleOrig f) CTATupleOrig)
      as [to [e1|]].
    { intros H; inversion H; subst. split; [reflexivity|]. right.
      repeat split. now left. }
    destruct (Tuple_MarshalAttribute C (TupleReply f) CTATupleReply)
      as [tr [e2|]].
    { intros H; inversion H; subst. split; [reflexivity|]. right.
      repeat split. right. left. now split. }
    destruct (Tuple_Filled C (TupleMaster f)) eqn:Fm; [|discriminate].
    destruct (Tuple_MarshalAttribute C (TupleMaster f) CTATupleMaster)
      as [tm [e3|]]; [|discriminate].
    intros H; inversion H; subst. split; [reflexivity|]. right.
    repeat split. right. right. now repeat split.
  - intros H; inversion H; subst. split; [reflexivity|]. left.
    split; [reflexivity|]. intros [_ Hr]. discriminate.
  - intros H; inversion H; subst. split; [reflexivity|]. left.
    split; [reflexivity|]. intros [Ho _]. discriminate.
Qed.

Lemma marshal_error_emits_nothing_witness :
  marshal SpecModel.model
    (set_TupleMaster odd_tuple plain_flow) = ([], Some errAddressFamily)
  /\ Tuple_Filled SpecModel.model
       (TupleMaster (set_TupleMaster odd_tuple plain_flow)) = true.
Proof.
  assert (H : marshal SpecModel.model (set_TupleMaster odd_tuple plain_flow)
              = ([], Some errAddressFamily)) by (vm_compute; reflexivity).
  split; [exact H|].
  destruct (marshal_error_emits_nothing SpecModel.model _ _ _ H)
    as [_ [[He _]|(_ & _ & [Ho|[[_ Hr]|(_ & _ & Hm & _)]])]].
  - discriminate He.
  - vm_compute in Ho. discriminate Ho.
  - vm_compute in Hr. discriminate Hr.
  - exact Hm.
Defined.

Lemma optional_length (b : bool) (a : Attribute) :
  (List.length (optional b a) <= 1)%nat.
Proof. destruct b; simpl; lia. Qed.

(** X2.  A successful encode returns at least the two tuple attributes
    and at most twelve attributes, the capacity the slice is made with. *)
Theorem marshal_length_bounds (C : Collaborators) (f : Flow)
    (attrs : list Attribute) :
  marshal C f = (attrs, None) ->
  (2 <= List.length attrs <= 12)%nat.
Proof.
  intros H.
  destruct (marshal_inv C f attrs H) as (to & tr & tm & _ & ->).
  unfold emitted. rewrite !length_app.
  repeat match goal with
         | |- context [List.length (optional ?b ?a)] =>
             let n := fresh "n" in
             let Hn := fresh "Hn" in
             pose proof (optional_length b a) as Hn;
             set (n := List.length (optional b a)) in *;
             clearbody n
         end.
  simpl. lia.
Qed.

Lemma marshal_length_bounds_witness :
  marshal SpecModel.model full_flow
  = (fst (marshal SpecModel.model full_flow), None)
  /\ (2 <= List.length (fst (marshal SpecModel.model full_flow)) <= 12)%nat.
Proof.
  assert (H : marshal SpecModel.model full_flow
              = (fst (marshal SpecModel.model full_flow), None))
    by (vm_compute; reflexivity).
  split; [exact H|].
  exact (marshal_length_bounds SpecModel.model full_flow _ H).
Defined.

(** X3.  What a Flow fresh from [NewFlow] encodes to, when no zero-valued
    sub-entity counts as filled and its two tuples are filled and encode to
    [to] and [tr]: encode succeeds with [to], [tr], then the timeout, the
    status and the mark, each only when nonzero, and nothing else. *)
Theorem marshal_NewFlow (C : Collaborators) (proto status : Z)
    (srcAddr destAddr : bytes) (srcPort destPort timeout mark : Z)
    (f : Flow) (to tr : Attribute) :
  f = NewFlow proto status srcAddr destAddr srcPort destPort timeout mark ->
  zero_unfilled C ->
  Tuple_Filled C (TupleOrig f) = true ->
  Tuple_Filled C (TupleReply f) = true ->
  Tuple_MarshalAttribute C (TupleOrig f) CTATupleOrig = (to, None) ->
  Tuple_MarshalAttribute C (TupleReply f) CTATupleReply = (tr, None) ->
  marshal C f =
  ([to; tr]
   ++ optional (negb (timeout =? 0))
        (Num32_MarshalAttribute C timeout CTATimeout)
   ++ optional (negb (status =? 0))
        (Status_MarshalAttribute C {| Value := status |})
   ++ optional (negb (mark =? 0)) (Num32_MarshalAttribute C mark CTAMark),
   None).
Proof.
  intros -> (Zt & Zp & Zh & Zs & Zy) Fo Fr Eto Etr.
  rewrite (marshal_tuple_attributes C _ to tr to).
  - unfold emitted, NewFlow, zeroFlow. flow_simpl.
    cbn [Value]. rewrite Zt, Zp, Zh, Zs, Zy.
    cbn [Z.eqb negb optional]. now rewrite !app_nil_r.
  - unfold tuple_attributes. repeat split; try assumption.
    unfold NewFlow, zeroFlow. flow_simpl. rewrite Zt. discriminate.
Qed.

Lemma marshal_NewFlow_witness :
  zero_unfilled SpecModel.model
  /\ Tuple_Filled SpecModel.model (TupleOrig fresh_flow) = true
  /\ Tuple_Filled SpecModel.model (TupleReply fresh_flow) = true
  /\ marshal SpecModel.model fresh_flow =
     ([fst (Tuple_MarshalAttribute SpecModel.model (TupleOrig fresh_flow)
              CTATupleOrig);
       fst (Tuple_MarshalAttribute SpecModel.model (TupleReply fresh_flow)
              CTATupleReply)]
      ++ optional (negb (120 =? 0))
           (Num32_MarshalAttribute SpecModel.model 120 CTATimeout)
      ++ optional (negb (12 =? 0))
           (Status_MarshalAttribute SpecModel.model {| Value := 12 |})
      ++ optional (negb (0 =? 0))
           (Num32_MarshalAttribute SpecModel.model 0 CTAMark),
      None).
Proof.
  assert (Hz : zero_unfilled SpecModel.model)
    by (repeat split; vm_compute; reflexivity).
  assert (Fo : Tuple_Filled SpecModel.model (TupleOrig fresh_flow) = true)
    by (vm_compute; reflexivity).
  assert (Fr : Tuple_Filled SpecModel.model (TupleReply fresh_flow) = true)
    by (vm_compute; reflexivity).
  split; [exact Hz|]. split; [exact Fo|]. split; [exact Fr|].
  apply (marshal_NewFlow SpecModel.model 6 12 (ip4 10 0 0 1) (ip4 10 0 0 2)
           1234 80 120 0 fresh_flow _ _ eq_refl Hz Fo Fr);
    vm_compute; reflexivity.
Defined.

Lemma select_In (bs : list bool) (l : list Z) (x : Z) :
  In x (select bs l) -> In x l.
Proof.
  revert l. induction bs as [|b bs IH]; intros [|y l]; simpl; try tauto.
  intros H. apply in_app_or in H. destruct H as [H|H].
  - destruct b; simpl in H; tauto.
  - right. now apply IH.
Qed.

Lemma select_NoDup (bs : list bool) (l : list Z) :
  NoDup l -> NoDup (select bs l).
Proof.
  revert l. induction bs as [|b bs IH]; intros [|y l] H; simpl;
    try constructor.
  inversion H as [|? ? Hy Hl]; subst.
  destruct b; simpl; [|now apply IH].
  constructor; [|now apply IH].
  intros Hin. apply Hy. now apply (select_In bs).
Qed.

Lemma map_attrType_optional (b : bool) (a : Attribute) (c : Z) :
  (b = true -> attrType a = c) ->
  map attrType (optional b a) = if b then [c] else [].
Proof. destruct b; simpl; intros H; [now rewrite H|reflexivity]. Qed.

Lemma negb_eqb_neq (z : Z) : negb (z =? 0) = true -> z <> 0.
Proof. intros H E. subst z. discriminate H. Qed.

(** X4.  When each attribute that encode makes carries its field's type
    code, a successful encode emits no type code twice, and only codes of
    the twelve fields it encodes, all of them known to decode: never the
    code of ID, Use, Labels, LabelsMask, the counters, the security context
    or the timestamp. *)
Theorem marshal_type_codes (C : Collaborators) (f : Flow)
    (attrs : list Attribute) :
  encoders_keep_codes C f ->
  marshal C f = (attrs, None) ->
  NoDup (map attrType attrs)
  /\ forall a, In a attrs ->
               In (attrType a) encode_types /\ known (attrType a) = true.
Proof.
  intros (Ko & Kr & Kt & Ks & Km & Kz & Kp & Kh & Kma & Kso & Ksr & Ksp) H.
  destruct (marshal_inv C f attrs H)
    as (to & tr & tm & (_ & _ & Eto & Etr & Etm) & ->).
  assert (Hsel :
    map attrType (emitted C f to tr tm) =
    select [true; true; negb (Timeout f =? 0); negb (Value (Status f) =? 0);
            negb (Mark f =? 0); negb (Zone f =? 0);
            ProtoInfo_Filled C (ProtoInfo f); Helper_Filled C (Helper f);
            Tuple_Filled C (TupleMaster f);
            SequenceAdjust_Filled C (SeqAdjOrig f);
            SequenceAdjust_Filled C (SeqAdjReply f);
            SynProxy_Filled C (SynProxy f)] encode_types).
  { unfold emitted. rewrite !map_app.
    rewrite (map_attrType_optional _ _ CTATimeout)
      by (intros E; apply Kt; now apply negb_eqb_neq).
    rewrite (map_attrType_optional _ _ CTAStatus)
      by (intros E; apply Ks; now apply negb_eqb_neq).
    rewrite (map_attrType_optional _ _ CTAMark)
      by (intros E; apply Km; now apply negb_eqb_neq).
    rewrite (map_attrType_optional _ _ CTAZone)
      by (intros E; apply Kz; now apply negb_eqb_neq).
    rewrite (map_attrType_optional _ _ CTAProtoInfo) by exact Kp.
    rewrite (map_attrType_optional _ _ CTAHelp) by exact Kh.
    rewrite (map_attrType_optional _ tm CTATupleMaster)
      by (intros E; apply (Kma E); now apply Etm).
    rewrite (map_attrType_optional _ _ CTASeqAdjOrig) by exact Kso.
    rewrite (map_attrType_optional _ _ CTASeqAdjReply) by exact Ksr.
    rewrite (map_attrType_optional _ _ CTASynProxy) by exact Ksp.
    cbn [map]. rewrite (Ko to Eto), (Kr tr Etr).
    unfold encode_types. cbn [select]. now rewrite app_nil_r. }
  split.
  - rewrite Hsel. apply select_NoDup.
    unfold encode_types.
    repeat constructor; simpl; intuition discriminate.
  - intros a Ha.
    assert (Hin : In (attrType a) encode_types).
    { apply (select_In _ _ _
        (eq_ind _ (fun l => In (attrType a) l) (in_map attrType _ _ Ha) _
           Hsel)). }
    split; [exact Hin|].
    unfold encode_types in Hin. simpl in Hin.
    repeat (destruct Hin as [<-|Hin]; [reflexivity|]). destruct Hin.
Qed.

(** A Flow fresh from the constructor has two equal, unfilled sequence
    adjustments, and nothing is asked of their encoder. *)
Lemma marshal_type_codes_witness :
  encoders_keep_codes SpecModel.model fresh_flow
  /\ marshal SpecModel.model fresh_flow
     = (fst (marshal SpecModel.model fresh_flow), None)
  /\ NoDup (map attrType (fst (marshal SpecModel.model fresh_flow))).
Proof.
  assert (Hk : encoders_keep_codes SpecModel.model fresh_flow).
  { unfold encoders_keep_codes.
    repeat match goal with
           | |- _ /\ _ => split
           end;
      try (intros a H; vm_compute in H; inversion H; subst a; clear H;
           vm_compute; reflexivity);
      try (intros _; vm_compute; reflexivity);
      intros H; vm_compute in H; discriminate H. }
  assert (H : marshal SpecModel.model fresh_flow
              = (fst (marshal SpecModel.model fresh_flow), None))
    by (vm_compute; reflexivity).
  split; [exact Hk|]. split; [exact H|].
  exact (proj1 (marshal_type_codes SpecModel.model fresh_flow _ Hk H)).
Defined.

(** ** Batch conversion: composition and errors *)

Section BatchMore.

Variable C : Collaborators.

(** The loop with a slice already collected: on success the slice is
    extended, on failure it is dropped. *)
Lemma unmarshalFlows_loop_out (nlm : list (Message C)) :
  forall out,
    unmarshalFlows_loop C nlm out =
    match unmarshalFlows_loop C nlm [] with
    | (r, None) => (out ++ r, None)
    | (_, Some e) => ([], Some e)
    end.
Proof.
  induction nlm as [|m rest IH]; intros out; simpl.
  - now rewrite app_nil_r.
  - destruct (unmarshalFlow C m) as [f [e|]]; [reflexivity|].
    rewrite (IH (out ++ [f])), (IH [f]).
    destruct (unmarshalFlows_loop C rest []) as [r [e|]]; [reflexivity|].
    now rewrite <- app_assoc.
Qed.

Lemma unmarshalFlows_loop_app (a b : list (Message C)) :
  forall out,
    unmarshalFlows_loop C (a ++ b) out =
    match unmarshalFlows_loop C a out with
    | (o, None) => unmarshalFlows_loop C b o
    | (o, Some e) => (o, Some e)
    end.
Proof.
  induction a as [|m rest IH]; intros out; simpl.
  - reflexivity.
  - destruct (unmarshalFlow C m) as [f [e|]]; [reflexivity|apply IH].
Qed.

Lemma unmarshalFlows_loop_error_inv (nlm : list (Message C)) :
  forall out r e,
    unmarshalFlows_loop C nlm out = (r, Some e) ->
    r = []
    /\ exists pre m post,
         nlm = pre ++ m :: post
         /\ (forall x, In x pre -> snd (unmarshalFlow C x) = None)
         /\ snd (unmarshalFlow C m) = Some e.
Proof.
  induction nlm as [|m rest IH]; intros out r e H; simpl in H.
  - discriminate.
  - destruct (unmarshalFlow C m) as [f [e1|]] eqn:E.
    + inversion H; subst. split; [reflexivity|].
      exists [], m, rest. repeat split; [intros x []|now rewrite E].
    + destruct (IH _ _ _ H) as (-> & pre & x & post & -> & Hpre & Hx).
      split; [reflexivity|].
      exists (m :: pre), x, post. repeat split; [|exact Hx].
      intros y [<-|Hy]; [now rewrite E|now apply Hpre].
Qed.

End BatchMore.

(** X8.  Decoding two batches in one call gives the Flows of the first
    followed by the Flows of the second when both decode, and no Flow and
    the first error otherwise. *)
Theorem unmarshalFlows_concat (C : Collaborators) (a b : list (Message C)) :
  unmarshalFlows C (a ++ b) =
  match unmarshalFlows C a, unmarshalFlows C b with
  | (_, Some e), _ => ([], Some e)
  | (_, None), (_, Some e) => ([], Some e)
  | (fa, None), (fb, None) => (fa ++ fb, None)
  end.
Proof.
  unfold unmarshalFlows. rewrite unmarshalFlows_loop_app.
  destruct (unmarshalFlows_loop C a []) as [fa [e|]] eqn:Ea.
  - now destruct (unmarshalFlows_loop_error_inv C a [] fa e Ea) as [-> _].
  - rewrite (unmarshalFlows_loop_out C b fa).
    now destruct (unmarshalFlows_loop C b []) as [fb [e|]].
Qed.

(** X9.  Every error of batch decode is the error of the first message
    that fails to decode, and comes with no Flow at all. *)
Theorem unmarshalFlows_error_is_first (C : Collaborators)
    (nlm : list (Message C)) (out : list Flow) (e : error) :
  unmarshalFlows C nlm = (out, Some e) ->
  out = []
  /\ exists pre m post,
       nlm = pre ++ m :: post
       /\ (forall x, In x pre -> snd (unmarshalFlow C x) = None)
       /\ snd (unmarshalFlow C m) = Some e.
Proof. apply unmarshalFlows_loop_error_inv. Qed.

Lemma unmarshalFlows_error_is_first_witness :
  unmarshalFlows SpecModel.model
    [good_message 30; bad_message; SpecModel.Garbled]
  = ([], Some (errAttributeUnknown 99))
  /\ exists pre m post,
       [good_message 30; bad_message; SpecModel.Garbled] = pre ++ m :: post
       /\ (forall x, In x pre ->
                     snd (unmarshalFlow SpecModel.model x) = None)
       /\ snd (unmarshalFlow SpecModel.model m)
          = Some (errAttributeUnknown 99).
Proof.
  assert (H : unmarshalFlows SpecModel.model
                [good_message 30; bad_message; SpecModel.Garbled]
              = ([], Some (errAttributeUnknown 99)))
    by (vm_compute; reflexivity).
  split; [exact H|].
  exact (proj2 (unmarshalFlows_error_is_first SpecModel.model _ _ _ H)).
Defined.

(** * The round trip over the modelled codecs *)

Section ModelRoundTrip.

Lemma Z_of_byte_of_Z (z : Z) : SpecModel.Z_of_byte (SpecModel.byte_of_Z z) = z mod 256.
Proof.
  unfold SpecModel.Z_of_byte, SpecModel.byte_of_Z.
  assert (Hm : 0 <= z mod 256 < 256) by (apply Z.mod_pos_bound; lia).
  destruct (Byte.of_N (Z.to_N (z mod 256))) as [b|] eqn:E.
  - apply Byte.to_of_N in E. rewrite E. apply Z2N.id. lia.
  - apply Byte.of_N_None_iff in E. lia.
Qed.

Lemma length_putUint (n : nat) (v : Z) : List.length (SpecModel.putUint n v) = n.
Proof. induction n as [|n IH]; simpl; [reflexivity|now rewrite IH]. Qed.

Lemma has_length_putUint (n : nat) (v : Z) :
  SpecModel.has_length n (SpecModel.putUint n v) = true.
Proof. unfold SpecModel.has_length. rewrite length_putUint. apply Nat.eqb_refl. Qed.

Lemma getUint_acc_putUint (n : nat) :
  forall acc v,
    SpecModel.getUint_acc acc (SpecModel.putUint n v)
    = acc * 2 ^ (8 * Z.of_nat n) + v mod 2 ^ (8 * Z.of_nat n).
Proof.
  induction n as [|n IH]; intros acc v.
  - simpl. rewrite Z.mod_1_r. lia.
  - cbn [SpecModel.putUint SpecModel.getUint_acc]. rewrite IH, Z_of_byte_of_Z.
    rewrite Z.shiftr_div_pow2 by lia.
    replace (8 * Z.of_nat (S n)) with (8 * Z.of_nat n + 8) by lia.
    rewrite Z.pow_add_r by lia.
    change (2 ^ 8) with 256.
    rewrite (Z.rem_mul_r v (2 ^ (8 * Z.of_nat n)) 256) by
      (try apply Z.pow_nonzero; lia).
    ring.
Qed.

Lemma getUint_putUint (n : nat) (v : Z) :
  0 <= v < 2 ^ (8 * Z.of_nat n) -> SpecModel.getUint (SpecModel.putUint n v) = v.
Proof.
  intros Hv. unfold SpecModel.getUint. rewrite getUint_acc_putUint.
  rewrite Z.mod_small by exact Hv. lia.
Qed.

Lemma getInt32_putUint (v : Z) :
  - 2 ^ 31 <= v < 2 ^ 31 -> SpecModel.getInt32 (SpecModel.putUint 4 v) = v.
Proof.
  intros Hv. unfold SpecModel.getInt32, SpecModel.getUint. rewrite getUint_acc_putUint.
  change (8 * Z.of_nat 4) with 32. rewrite Z.mul_0_l, Z.add_0_l.
  destruct (Z_lt_dec v 0) as [Hn|Hn].
  - replace (v mod 2 ^ 32) with (v + 2 ^ 32).
    + destruct (Z.ltb_spec (v + 2 ^ 32) (2 ^ 31)); lia.
    + apply (Z.mod_unique _ _ (-1)); lia.
  - rewrite Z.mod_small by lia.
    destruct (Z.ltb_spec v (2 ^ 31)); lia.
Qed.

Lemma getUint_putUint1 (v : Z) :
  0 <= v < 2 ^ 8 -> SpecModel.getUint (SpecModel.putUint 1 v) = v.
Proof. intros H. now apply getUint_putUint. Qed.

Lemma getUint_putUint2 (v : Z) :
  0 <= v < 2 ^ 16 -> SpecModel.getUint (SpecModel.putUint 2 v) = v.
Proof. intros H. now apply getUint_putUint. Qed.

Lemma getUint_putUint4 (v : Z) :
  0 <= v < 2 ^ 32 -> SpecModel.getUint (SpecModel.putUint 4 v) = v.
Proof. intros H. now apply getUint_putUint. Qed.

(** Unfolds a modelled decoder on an encoded attribute, as far as the
    lengths and values of the encoded integers allow. *)
Ltac model_decode :=
  repeat (unfold SpecModel.ip_member, SpecModel.proto_member,
            SpecModel.tuple_member, SpecModel.helper_member,
            SpecModel.seqadj_member, SpecModel.synproxy_member;
          cbn -[SpecModel.putUint SpecModel.getUint SpecModel.getInt32
                SpecModel.has_length Z.pow Z.modulo];
          rewrite ?has_length_putUint;
          rewrite ?getUint_putUint1, ?getUint_putUint2, ?getUint_putUint4,
            ?getInt32_putUint by assumption).

Lemma model_tuple_reads_back (t : Tuple) (code : Z) :
  tuple_in_range t -> tuple_reads_back SpecModel.model t code.
Proof.
  intros (Hp & Hs & Hd) a H. unfold reads_back.
  cbn [Tuple_MarshalAttribute Tuple_UnmarshalAttribute SpecModel.model] in *.
  unfold SpecModel.Tuple_MarshalAttribute in H.
  destruct t as [[src dst] [p sp dp]].
  cbn [IP Proto SourceAddress DestinationAddress Protocol SourcePort
       DestinationPort] in *.
  destruct (SpecModel.has_length 4 src && SpecModel.has_length 4 dst) eqn:E4;
    [|destruct (SpecModel.has_length 16 src && SpecModel.has_length 16 dst)
        eqn:E16; [|discriminate]].
  - apply andb_prop in E4 as [Es Ed]. inversion H; subst a; clear H.
    split; [reflexivity|].
    unfold SpecModel.Tuple_UnmarshalAttribute. model_decode.
    rewrite Es. model_decode. rewrite Ed. model_decode. reflexivity.
  - apply andb_prop in E16 as [Es Ed]. inversion H; subst a; clear H.
    split; [reflexivity|].
    unfold SpecModel.Tuple_UnmarshalAttribute. model_decode.
    rewrite Es. model_decode. rewrite Ed. model_decode. reflexivity.
Qed.

Lemma model_seqadj_reads_back (x : SequenceAdjust) (code : Z) :
  seqadj_in_range x ->
  code = (if Direction x then CTASeqAdjReply else CTASeqAdjOrig) ->
  reads_back (SequenceAdjust_UnmarshalAttribute SpecModel.model)
    zeroSequenceAdjust code
    (SequenceAdjust_MarshalAttribute SpecModel.model x) x.
Proof.
  intros (Hp & Hb & Ha) ->. unfold reads_back.
  cbn [SequenceAdjust_MarshalAttribute SequenceAdjust_UnmarshalAttribute
       SpecModel.model].
  destruct x as [d p b a].
  cbn [Direction Position OffsetBefore OffsetAfter] in *.
  split; [reflexivity|].
  unfold SpecModel.SequenceAdjust_UnmarshalAttribute,
    SpecModel.SequenceAdjust_MarshalAttribute.
  destruct d; model_decode; reflexivity.
Qed.

(** Every modelled codec reads back what it encodes, for the values a
    filled, well-directed Flow holds. *)
Lemma model_sub_codecs_invert (f : Flow) :
  ProtoInfo_Filled SpecModel.model (ProtoInfo f) = true ->
  in_range f ->
  directions_set f ->
  sub_codecs_invert SpecModel.model f.
Proof.
  intros Hpi (Ht & Hs & Hm & Hz & Ho & Hr & Hma & Hso & Hsr & Hi & Hw)
    [Do Dr].
  unfold sub_codecs_invert.
  split; [now apply model_tuple_reads_back|].
  split; [now apply model_tuple_reads_back|].
  split; [now apply model_tuple_reads_back|].
  split.
  { cbn [Num32_MarshalAttribute Uint32 SpecModel.model].
    unfold SpecModel.Uint32. split; [reflexivity|]. model_decode.
    now apply Z.mod_small. }
  split.
  { unfold reads_back.
    cbn [Status_MarshalAttribute Status_UnmarshalAttribute SpecModel.model].
    split; [reflexivity|].
    unfold SpecModel.Status_UnmarshalAttribute. model_decode.
    now destruct (Status f). }
  split.
  { cbn [Num32_MarshalAttribute Uint32 SpecModel.model].
    unfold SpecModel.Uint32. split; [reflexivity|]. model_decode.
    now apply Z.mod_small. }
  split.
  { cbn [Num16_MarshalAttribute Uint16 SpecModel.model].
    unfold SpecModel.Uint16. split; [reflexivity|]. model_decode.
    now apply Z.mod_small. }
  split.
  { unfold reads_back.
    cbn [ProtoInfo_MarshalAttribute ProtoInfo_UnmarshalAttribute
         ProtoInfo_Filled SpecModel.model] in *.
    split; [reflexivity|].
    destruct (ProtoInfo f); [discriminate| | |]; reflexivity. }
  split.
  { unfold reads_back.
    cbn [Helper_MarshalAttribute Helper_UnmarshalAttribute SpecModel.model].
    split; [reflexivity|].
    unfold SpecModel.Helper_UnmarshalAttribute. model_decode.
    now destruct (Helper f). }
  split.
  { apply model_seqadj_reads_back; [exact Hso|]. now rewrite Do. }
  split.
  { apply model_seqadj_reads_back; [exact Hsr|]. now rewrite Dr. }
  unfold reads_back.
  cbn [SynProxy_MarshalAttribute SynProxy_UnmarshalAttribute SpecModel.model].
  split; [reflexivity|].
  unfold SpecModel.SynProxy_UnmarshalAttribute. model_decode.
  now destruct (SynProxy f).
Qed.

End ModelRoundTrip.

(** C1, amended.  With the codecs of sections 4.2 to 4.4: for every Flow
    whose optional scalars are all nonzero and whose optional sub-entities
    are all filled, whose SeqAdjOrig is marked as the original direction
    and whose SeqAdjReply as the reply direction, decoding the attribute
    list that encoding the Flow produces gives a Flow with the same
    TupleOrig, TupleReply, Timeout, Status, Mark, Zone, ProtoInfo, Helper,
    TupleMaster, SeqAdjOrig, SeqAdjReply and SynProxy.  (The integers are
    values of their fixed-width types, which Go's types guarantee.) *)
Theorem marshal_unmarshal_roundtrip (f : Flow) (attrs : list Attribute) :
  populated SpecModel.model f ->
  in_range f ->
  directions_set f ->
  marshal SpecModel.model f = (attrs, None) ->
  exists f',
    unmarshal SpecModel.model zeroFlow attrs = (f', None)
    /\ same_emitted_fields f f'.
Proof.
  intros Hp Hr Hd Hm.
  apply (roundtrip_of_sub_codecs SpecModel.model f attrs Hp); [|exact Hm].
  apply model_sub_codecs_invert; [|exact Hr|exact Hd].
  now destruct Hp as (_ & _ & _ & _ & Hpi & _).
Qed.

Lemma full_flow_in_range : in_range full_flow.
Proof.
  unfold in_range, tuple_in_range, seqadj_in_range. cbn. lia.
Qed.

Lemma marshal_unmarshal_roundtrip_witness :
  populated SpecModel.model full_flow
  /\ in_range full_flow
  /\ directions_set full_flow
  /\ marshal SpecModel.model full_flow
     = (fst (marshal SpecModel.model full_flow), None)
  /\ exists f',
       unmarshal SpecModel.model zeroFlow
         (fst (marshal SpecModel.model full_flow)) = (f', None)
       /\ same_emitted_fields full_flow f'.
Proof.
  assert (Hd : directions_set full_flow) by (split; reflexivity).
  assert (Hm : marshal SpecModel.model full_flow
               = (fst (marshal SpecModel.model full_flow), None))
    by (vm_compute; reflexivity).
  split; [exact full_flow_populated|].
  split; [exact full_flow_in_range|].
  split; [exact Hd|]. split; [exact Hm|].
  exact (marshal_unmarshal_roundtrip full_flow _ full_flow_populated
           full_flow_in_range Hd Hm).
Defined.
